(** * Availability-ranking engine of the planner event page

    A shallow embedding of the ranking code of the event page
    ([rankByComparator], [sortOrderToComparator], [rankBySortOrder],
    [determineMostSignificantLabel], [labelResponses] and
    [responsePreferenceCardianlity]) together with the properties the
    specification states about it.

    Conventions of the embedding.
    - A JavaScript [number] is a [Z]: every number the engine handles is a
      count, a rank, an index or a preference (an integer of the scale
      -1 .. 4 in the data model), far inside the range where IEEE doubles
      are exact.
    - A [Map] is a stdpp [gmap]; the in-place update of an inner [Map]
      reached through the outer one is written as an update of the outer
      map at the same key.
    - [throw] is made explicit by the [completion] monad. *)

From stdpp Require Import gmap strings list fin_maps sorting.
From Stdlib Require Import ZArith Lia.

Open Scope Z_scope.

(** ** Completions: normal return or a thrown [Error] *)

Inductive completion (A : Type) : Type :=
| Normal (a : A)
| Throw (msg : string).
Arguments Normal {A} a.
Arguments Throw {A} msg.

Definition bind {A B : Type} (c : completion A) (k : A -> completion B)
  : completion B :=
  match c with
  | Normal a => k a
  | Throw msg => Throw msg
  end.

Notation "x <- c ;; k" := (bind c (fun x => k))
  (at level 100, c at next level, right associativity).

(** [for (const x of xs) { acc = step(acc, x) }] with a body that may throw. *)
Fixpoint foldM {A B : Type} (step : B -> A -> completion B) (xs : list A)
  (acc : B) : completion B :=
  match xs with
  | [] => Normal acc
  | x :: xs' => acc' <- step acc x ;; foldM step xs' acc'
  end.

(** [xs.map(f)] with a callback that may throw. *)
Fixpoint mapM {A B : Type} (f : A -> completion B) (xs : list A)
  : completion (list B) :=
  match xs with
  | [] => Normal []
  | x :: xs' => y <- f x ;; ys <- mapM f xs' ;; Normal (y :: ys)
  end.

Definition assertNotNull {A : Type} (val : option A) : completion A :=
  match val with
  | None => Throw "Value is null or undefined"
  | Some v => Normal v
  end.

(** ** The rank assignment utility *)

Record Ranked (T : Type) : Type := mkRanked { item : T; rank : Z }.
Arguments mkRanked {T} item rank.
Arguments item {T} r.
Arguments rank {T} r.

Definition ComparatorFn (T : Type) : Type := T -> T -> completion Z.
Definition SortOrder (T : Type) : Type := T -> completion (option Z).

Section Ranking.
Context {T : Type}.

(** [Array.from(arr).sort(fn)].  ECMAScript asks for a stable sort and
    fixes the outcome for a consistent comparator; for any other
    comparator the order is left to the implementation.  The model is the
    stable insertion sort: an element goes in front of the first element
    of the sorted rest that it does not compare greater than.  A throw of
    the comparator ends the sort. *)
Fixpoint sorted_insert (fn : ComparatorFn T) (x : T) (l : list T)
  : completion (list T) :=
  match l with
  | [] => Normal [x]
  | y :: l' =>
      c <- fn x y ;;
      if c <=? 0 then Normal (x :: y :: l')
      else r <- sorted_insert fn x l' ;; Normal (y :: r)
  end.

Fixpoint Array_sort (fn : ComparatorFn T) (arr : list T)
  : completion (list T) :=
  match arr with
  | [] => Normal []
  | x :: arr' => s <- Array_sort fn arr' ;; sorted_insert fn x s
  end.

(** The [for] loop of [rankByComparator]: [result] is the array built so
    far, [lastItem] its last element. *)
Fixpoint rank_loop (fn : ComparatorFn T) (baseRanking : list (Ranked T))
  (result : list (Ranked T)) : completion (list (Ranked T)) :=
  match baseRanking with
  | [] => Normal result
  | it :: rest =>
      if bool_decide (length result = 0%nat) then rank_loop fn rest [it]
      else
        match last result with
        | None => Throw "lastItem is null"
        | Some lastItem =>
            c <- fn (item it) (item lastItem) ;;
            let it' :=
              if c =? 0 then mkRanked (item it) (rank lastItem)
              else mkRanked (item it) (rank lastItem + 1) in
            rank_loop fn rest (result ++ [it'])
        end
  end.

Definition rankByComparator (arr : list T) (fn : ComparatorFn T)
  : completion (list (Ranked T)) :=
  sorted <- Array_sort fn arr ;;
  let baseRanking := imap (fun i it => mkRanked it (Z.of_nat i)) sorted in
  rank_loop fn baseRanking [].

Definition sortOrderToComparator (f : SortOrder T) : ComparatorFn T :=
  fun a b =>
    aVal <- f a ;;
    bVal <- f b ;;
    match aVal, bVal with
    | None, None => Normal 0
    | None, Some _ => Normal 1
    | Some _, None => Normal (-1)
    | Some av, Some bv => Normal (av - bv)
    end.

Definition rankBySortOrder (arr : list T) (fn : SortOrder T)
  : completion (list (Ranked T)) :=
  rankByComparator arr (sortOrderToComparator fn).
End Ranking.

(** ** Labels *)

Record RankLabels : Type := mkRankLabels {
  leastNumberOfNosRank : Z;
  leastNumberOfNosMaybesRank : Z;
  bestScoreRank : Z;
  overallRank : Z;
  strictlySuperiorRank : Z
}.

Inductive Label : Type :=
| BestOverall
| SecondBest
| MostPreferred
| FewestNos
| FewestNosMaybes
| Nothing
| Suboptimal.

Definition determineMostSignificantLabel (rl : RankLabels)
  (numberOfOptions : Z) : Label :=
  if overallRank rl =? 0 then BestOverall
  else if (overallRank rl =? 1) && (numberOfOptions >? 2) then SecondBest
  else if bestScoreRank rl =? 0 then MostPreferred
  else if leastNumberOfNosRank rl =? 0 then FewestNos
  else if leastNumberOfNosMaybesRank rl =? 0 then FewestNosMaybes
  else if strictlySuperiorRank rl >? 0 then Suboptimal
  else Nothing.

(** ** Options, responses and the tally *)

Record Option : Type := mkOption { id : string; date : string }.

Record SelectedOption : Type := mkSelectedOption {
  preference : Z;
  uncertain : bool;
  optionId : string
}.

Record Respondent : Type := mkRespondent { name : option string }.

Record Response : Type := mkResponse {
  respondent : Respondent;
  selectedOptions : list SelectedOption
}.

Abbreviation Tally := (gmap Z Z).
Abbreviation Cardinality := (gmap string (gmap Z Z)).
Abbreviation LabeledResponses := (gmap string RankLabels).

(** One iteration of the loop of [responsePreferenceCardianlity]. *)
Definition cardinality_step (responsesPreferenceSet : Cardinality)
  (opt : SelectedOption) : completion Cardinality :=
  let m :=
    match responsesPreferenceSet !! optionId opt with
    | Some _ => responsesPreferenceSet
    | None => <[optionId opt := ∅]> responsesPreferenceSet
    end in
  pref <- assertNotNull (m !! optionId opt) ;;
  let pref' :=
    <[preference opt := default 0 (pref !! preference opt) + 1]> pref in
  Normal (<[optionId opt := pref']> m).

Definition responsePreferenceCardianlity
  (allChosenOptions : list SelectedOption) : completion Cardinality :=
  foldM cardinality_step allChosenOptions ∅.

(** [ranked.find((y) => y.item.id === x)] *)
Definition find_by_id (ranked : list (Ranked Option)) (x : string)
  : option (Ranked Option) :=
  find (fun y => bool_decide (id (item y) = x)) ranked.

(** [new Map(items)]: the entries are set one after the other. *)
Definition Map_of_entries {V : Type} (items : list (string * V))
  : gmap string V :=
  fold_left (fun m kv => <[kv.1 := kv.2]> m) items ∅.

Section LabelResponses.
Variable card : Cardinality.

Definition leastNumberOfNos_key : SortOrder Option :=
  fun x =>
    match card !! id x with
    | None => Normal None
    | Some val => Normal (Some (default 0 (val !! (-1))))
    end.

Definition leastNumberOfNosMaybes_key : SortOrder Option :=
  fun x =>
    match card !! id x with
    | None => Normal None
    | Some val =>
        Normal (Some (default 0 (val !! (-1)) + default 0 (val !! 0)))
    end.

Definition bestScore_key : SortOrder Option :=
  fun x =>
    match card !! id x with
    | None => Normal None
    | Some val =>
        let product :=
          map_fold (fun key value acc => acc + key * value) 0 val in
        Normal (Some (- product))
    end.

Variable numberOfOptions : Z.
Variables leastNumberOfNos leastNumberOfNosMaybes bestScore
  : list (Ranked Option).

Definition overall_key : SortOrder Option :=
  fun x =>
    match find_by_id leastNumberOfNos (id x),
          find_by_id leastNumberOfNosMaybes (id x),
          find_by_id bestScore (id x) with
    | Some numberOfNosRank, Some numberOfNosMaybesRank, Some bestScoreRank =>
        (* Least to most important ranking *)
        let rankingComponents :=
          [bestScoreRank; numberOfNosMaybesRank; numberOfNosRank] in
        let aggregateRankScore :=
          fold_left (fun acc x => acc + x)
            (imap (fun i x => Z.of_nat i * numberOfOptions + rank x)
               rankingComponents) 0 in
        Normal (Some aggregateRankScore)
    | _, _, _ => Throw "Could not find rank"
    end.

Definition strictlySuperior_cmp : ComparatorFn Option :=
  fun a b =>
    na <- assertNotNull (find_by_id leastNumberOfNos (id a)) ;;
    nb <- assertNotNull (find_by_id leastNumberOfNos (id b)) ;;
    let nosComp := rank na - rank nb in
    ma <- assertNotNull (find_by_id leastNumberOfNosMaybes (id a)) ;;
    mb <- assertNotNull (find_by_id leastNumberOfNosMaybes (id b)) ;;
    let nosMaybesComp := rank ma - rank mb in
    sa <- assertNotNull (find_by_id bestScore (id a)) ;;
    sb <- assertNotNull (find_by_id bestScore (id b)) ;;
    let scoreComp := rank sa - rank sb in
    if (nosComp =? 0) && (nosMaybesComp =? 0) && (scoreComp =? 0)
    then Normal 0
    else if (nosComp <=? 0) && (nosMaybesComp <=? 0) && (scoreComp <=? 0)
    then Normal (-1)
    else if (nosComp >=? 0) && (nosMaybesComp >=? 0) && (scoreComp >=? 0)
    then Normal 1
    else Normal 0.

Variables overall strictlySuperior : list (Ranked Option).

Definition label_entry (x : string) : completion (string * RankLabels) :=
  nm <- assertNotNull (find_by_id leastNumberOfNosMaybes x) ;;
  n <- assertNotNull (find_by_id leastNumberOfNos x) ;;
  bs <- assertNotNull (find_by_id bestScore x) ;;
  ov <- assertNotNull (find_by_id overall x) ;;
  ss <- assertNotNull (find_by_id strictlySuperior x) ;;
  Normal (x, mkRankLabels (rank n) (rank nm) (rank bs) (rank ov) (rank ss)).
End LabelResponses.

Definition labelResponses (options : list Option) (responses : list Response)
  : completion LabeledResponses :=
  let numberOfOptions := Z.of_nat (length options) in
  let allChosenOptions := flat_map selectedOptions responses in
  card <- responsePreferenceCardianlity allChosenOptions ;;
  leastNumberOfNos <- rankBySortOrder options (leastNumberOfNos_key card) ;;
  leastNumberOfNosMaybes <-
    rankBySortOrder options (leastNumberOfNosMaybes_key card) ;;
  bestScore <- rankBySortOrder options (bestScore_key card) ;;
  overall <-
    rankBySortOrder options
      (overall_key numberOfOptions leastNumberOfNos leastNumberOfNosMaybes
         bestScore) ;;
  strictlySuperior <-
    rankByComparator options
      (strictlySuperior_cmp leastNumberOfNos leastNumberOfNosMaybes
         bestScore) ;;
  items <-
    mapM
      (label_entry leastNumberOfNos leastNumberOfNosMaybes bestScore overall
         strictlySuperior)
      (map id options) ;;
  Normal (Map_of_entries items).

(** The label the summary row of [Responses] computes for an option id,
    [determineMostSignificantLabel (data, options.length)] on the entry of
    [labels].  The component renders that row only when there is at least
    one response; with none it returns its "No responses yet" message
    first, after [labels] has been computed. *)
Definition label_of (options : list Option) (labels : LabeledResponses)
  (x : string) : option Label :=
  (fun data => determineMostSignificantLabel data (Z.of_nat (length options)))
    <$> labels !! x.

(** ** The ranking rule in the words of the specification

    Rank 0 for the first sorted item; every later item takes the rank of
    the item just before it when the two compare equal, and that rank plus
    one otherwise. *)

Fixpoint spec_ranks_from {T : Type} (cmp : T -> T -> Z) (prev : T)
  (prevRank : Z) (sorted : list T) : list (Ranked T) :=
  match sorted with
  | [] => []
  | x :: sorted' =>
      let r := if cmp x prev =? 0 then prevRank else prevRank + 1 in
      mkRanked x r :: spec_ranks_from cmp x r sorted'
  end.

Definition spec_ranks {T : Type} (cmp : T -> T -> Z) (sorted : list T)
  : list (Ranked T) :=
  match sorted with
  | [] => []
  | x :: sorted' => mkRanked x 0 :: spec_ranks_from cmp x 0 sorted'
  end.

(** The value of the comparator [sortOrderToComparator f] builds, for a key
    function that returns [k]. *)
Definition nullish_compare {T : Type} (k : T -> option Z) (a b : T) : Z :=
  match k a, k b with
  | None, None => 0
  | None, Some _ => 1
  | Some _, None => -1
  | Some av, Some bv => av - bv
  end.

(** [fn] returns normally, with the value [cmp a b], on the elements of [l]. *)
Definition pure_on {T : Type} (fn : ComparatorFn T) (cmp : T -> T -> Z)
  (l : list T) : Prop :=
  forall a b, a ∈ l -> b ∈ l -> fn a b = Normal (cmp a b).

(** A consistent comparator on the elements of [l]: a total preorder. *)
Record consistent_on {T : Type} (cmp : T -> T -> Z) (l : list T) : Prop := {
  cons_total : forall a b, a ∈ l -> b ∈ l -> 0 < cmp a b -> cmp b a <= 0;
  cons_trans : forall a b c, a ∈ l -> b ∈ l -> c ∈ l ->
      cmp a b <= 0 -> cmp b c <= 0 -> cmp a c <= 0
}.

(** ** Definitions used to state the properties *)



(** The priority cascade in the words of the specification: a rule applies
    only when no earlier rule does. *)
Inductive label_cascade (rl : RankLabels) (numberOfOptions : Z)
  : Label -> Prop :=
| cascade_BestOverall :
    overallRank rl = 0 ->
    label_cascade rl numberOfOptions BestOverall
| cascade_SecondBest :
    overallRank rl <> 0 ->
    overallRank rl = 1 -> numberOfOptions > 2 ->
    label_cascade rl numberOfOptions SecondBest
| cascade_MostPreferred :
    overallRank rl <> 0 ->
    ~ (overallRank rl = 1 /\ numberOfOptions > 2) ->
    bestScoreRank rl = 0 ->
    label_cascade rl numberOfOptions MostPreferred
| cascade_FewestNos :
    overallRank rl <> 0 ->
    ~ (overallRank rl = 1 /\ numberOfOptions > 2) ->
    bestScoreRank rl <> 0 ->
    leastNumberOfNosRank rl = 0 ->
    label_cascade rl numberOfOptions FewestNos
| cascade_FewestNosMaybes :
    overallRank rl <> 0 ->
    ~ (overallRank rl = 1 /\ numberOfOptions > 2) ->
    bestScoreRank rl <> 0 ->
    leastNumberOfNosRank rl <> 0 ->
    leastNumberOfNosMaybesRank rl = 0 ->
    label_cascade rl numberOfOptions FewestNosMaybes
| cascade_Suboptimal :
    overallRank rl <> 0 ->
    ~ (overallRank rl = 1 /\ numberOfOptions > 2) ->
    bestScoreRank rl <> 0 ->
    leastNumberOfNosRank rl <> 0 ->
    leastNumberOfNosMaybesRank rl <> 0 ->
    strictlySuperiorRank rl > 0 ->
    label_cascade rl numberOfOptions Suboptimal
| cascade_Nothing :
    overallRank rl <> 0 ->
    ~ (overallRank rl = 1 /\ numberOfOptions > 2) ->
    bestScoreRank rl <> 0 ->
    leastNumberOfNosRank rl <> 0 ->
    leastNumberOfNosMaybesRank rl <> 0 ->
    ~ strictlySuperiorRank rl > 0 ->
    label_cascade rl numberOfOptions Nothing.

(** The value a key function returns, and the value a comparator returns,
    where they return normally. *)
Definition key_value {T : Type} (f : SortOrder T) (x : T) : option Z :=
  match f x with Normal v => v | Throw _ => None end.

Definition cmp_value {T : Type} (fn : ComparatorFn T) (a b : T) : Z :=
  match fn a b with Normal c => c | Throw _ => 0 end.

(** The rank an id is given by a ranked list. *)
Definition rank_of (ranked : list (Ranked Option)) (x : string) : Z :=
  match find_by_id ranked x with Some e => rank e | None => 0 end.

(** The outcome of one loop iteration of [responsePreferenceCardianlity]. *)
Definition tally_add (m : Cardinality) (opt : SelectedOption) : Cardinality :=
  let pref := default ∅ (m !! optionId opt) in
  <[optionId opt :=
      <[preference opt := default 0 (pref !! preference opt) + 1]> pref]> m.

(** [r] ranks a rearrangement of [options] by [cmp]. *)
Definition ranking (options : list Option) (cmp : Option -> Option -> Z)
  (r : list (Ranked Option)) : Prop :=
  exists s, s ≡ₚ options /\ r = spec_ranks cmp s.

(** [r] ranks [options], sorted in ascending order of [cmp]. *)
Definition sorted_ranking (options : list Option)
  (cmp : Option -> Option -> Z) (r : list (Ranked Option)) : Prop :=
  exists s, s ≡ₚ options /\
            StronglySorted (fun a b => cmp a b <= 0) s /\
            r = spec_ranks cmp s.

(** The entry of the returned map for the option id [x]. *)
Definition labels_at (r1 r2 r3 r4 r5 : list (Ranked Option)) (x : string)
  : RankLabels :=
  mkRankLabels (rank_of r1 x) (rank_of r2 x) (rank_of r3 x) (rank_of r4 x)
    (rank_of r5 x).

(** The intermediate values of one call of [labelResponses]. *)
Record pipeline (options : list Option) (responses : list Response)
  (card : Cardinality) (r1 r2 r3 r4 r5 : list (Ranked Option)) : Prop := {
  pipe_card :
    card = fold_left tally_add (flat_map selectedOptions responses) ∅;
  pipe_card_run :
    responsePreferenceCardianlity (flat_map selectedOptions responses)
    = Normal card;
  pipe_nos_run :
    rankBySortOrder options (leastNumberOfNos_key card) = Normal r1;
  pipe_nosMaybes_run :
    rankBySortOrder options (leastNumberOfNosMaybes_key card) = Normal r2;
  pipe_bestScore_run :
    rankBySortOrder options (bestScore_key card) = Normal r3;
  pipe_overall_run :
    rankBySortOrder options
      (overall_key (Z.of_nat (length options)) r1 r2 r3) = Normal r4;
  pipe_strictlySuperior_run :
    rankByComparator options (strictlySuperior_cmp r1 r2 r3) = Normal r5;
  pipe_nos :
    sorted_ranking options
      (nullish_compare (key_value (leastNumberOfNos_key card))) r1;
  pipe_nosMaybes :
    sorted_ranking options
      (nullish_compare (key_value (leastNumberOfNosMaybes_key card))) r2;
  pipe_bestScore :
    sorted_ranking options
      (nullish_compare (key_value (bestScore_key card))) r3;
  pipe_overall :
    sorted_ranking options
      (nullish_compare
         (key_value (overall_key (Z.of_nat (length options)) r1 r2 r3))) r4;
  pipe_strictlySuperior :
    ranking options (cmp_value (strictlySuperior_cmp r1 r2 r3)) r5
}.

(** The two-option scenario of the specification: one response voting
    "amazing" for [A] and nothing for [B], and the map [labelResponses]
    returns for it. *)
Definition scenario_options : list Option :=
  [mkOption "A" "2023-05-01"; mkOption "B" "2023-05-02"].
Definition scenario_responses : list Response :=
  [mkResponse (mkRespondent (Some "Ada")) [mkSelectedOption 4 false "A"]].
Definition scenario_labels : LabeledResponses :=
  Map_of_entries
    [("A", mkRankLabels 0 0 0 0 0); ("B", mkRankLabels 1 1 1 1 1)].

(** Two response lists that differ at most in the [uncertain] flags of
    their Selected Options. *)
Definition same_up_to_uncertain (responses responses' : list Response) : Prop :=
  Forall2
    (fun r r' =>
       respondent r = respondent r' /\
       Forall2
         (fun s s' =>
            preference s = preference s' /\ optionId s = optionId s')
         (selectedOptions r) (selectedOptions r'))
    responses responses'.

(** The ordering a key function [k] imposes through [fn], the comparator
    built from it, on the ranked list [r] of [arr]: absent keys are equal
    to each other and greater than present ones, present keys compare as
    numbers, and the output lists present keys in ascending order before
    all absent ones. *)
Definition nullish_ordering {T : Type} (k : T -> option Z)
  (fn : ComparatorFn T) (arr : list T) (r : list (Ranked T)) : Prop :=
  (forall a b, a ∈ arr -> b ∈ arr ->
     exists c, fn a b = Normal c /\
       match k a, k b with
       | None, None => c = 0
       | None, Some _ => 0 < c
       | Some _, None => c < 0
       | Some x, Some y => c = x - y
       end) /\
  (forall (i j : nat) p q, (i < j)%nat -> r !! i = Some p -> r !! j = Some q ->
     match k (item p), k (item q) with
     | None, Some _ => False
     | Some x, Some y => x <= y
     | _, None => True
     end).

(** An input for the overall criterion.  Two options, two responses: [A]
    gets two "maybe" votes; [B] gets one "no" and one "amazing". *)
Definition inversion_options : list Option :=
  [mkOption "A" "2023-05-01"; mkOption "B" "2023-05-02"].
Definition inversion_responses : list Response :=
  [mkResponse (mkRespondent (Some "Ada"))
     [mkSelectedOption 0 false "A"; mkSelectedOption (-1) false "B"];
   mkResponse (mkRespondent (Some "Bob"))
     [mkSelectedOption 0 false "A"; mkSelectedOption 4 false "B"]].

(** [a] dominates [b]: no worse in the three component ranks and better in
    one of them. *)
Definition dominates (a b : RankLabels) : Prop :=
  leastNumberOfNosRank a <= leastNumberOfNosRank b /\
  leastNumberOfNosMaybesRank a <= leastNumberOfNosMaybesRank b /\
  bestScoreRank a <= bestScoreRank b /\
  (leastNumberOfNosRank a < leastNumberOfNosRank b \/
   leastNumberOfNosMaybesRank a < leastNumberOfNosMaybesRank b \/
   bestScoreRank a < bestScoreRank b).

(** An input for the dominance criterion: five options, three responses,
    and the map [labelResponses] returns for them. *)
Definition dominance_options : list Option :=
  [mkOption "A" "2023-05-01"; mkOption "B" "2023-05-02";
   mkOption "C" "2023-05-03"; mkOption "D" "2023-05-04";
   mkOption "E" "2023-05-05"].
Definition dominance_responses : list Response :=
  [mkResponse (mkRespondent (Some "Ada"))
     [mkSelectedOption 1 false "A"; mkSelectedOption 0 false "B";
      mkSelectedOption 0 false "C"];
   mkResponse (mkRespondent (Some "Bob"))
     [mkSelectedOption (-1) false "A"; mkSelectedOption 4 false "B";
      mkSelectedOption 0 false "C"; mkSelectedOption (-1) false "D"];
   mkResponse (mkRespondent (Some "Cy"))
     [mkSelectedOption 2 false "A"; mkSelectedOption 0 false "B";
      mkSelectedOption 3 false "C"; mkSelectedOption 3 false "D";
      mkSelectedOption 1 false "E"]].
Definition dominance_labels : LabeledResponses :=
  Map_of_entries
    [("A", mkRankLabels 1 1 2 2 0); ("B", mkRankLabels 0 2 0 0 0);
     ("C", mkRankLabels 0 2 1 1 1); ("D", mkRankLabels 1 1 2 2 1);
     ("E", mkRankLabels 0 0 3 1 1)].

(** ** Votes

    The Selected Options of [l] that refer to the option id [k]: how many
    of them carry the preference [p], and the sum of their preferences. *)
Definition votes (l : list SelectedOption) (k : string) (p : Z) : Z :=
  Z.of_nat
    (length
       (List.filter
          (fun s => bool_decide (optionId s = k)
                    && bool_decide (preference s = p)) l)).

Definition preference_sum (l : list SelectedOption) (k : string) : Z :=
  foldr Z.add 0
    (map preference (List.filter (fun s => bool_decide (optionId s = k)) l)).

(** The tallies after the loop has run over [l]. *)
Definition tally_counts (l : list SelectedOption) (card : Cardinality) : Prop :=
  forall k,
    (card !! k = None <-> Forall (fun s => optionId s <> k) l) /\
    forall t, card !! k = Some t ->
      (forall p, t !! p = if votes l k p =? 0 then None
                          else Some (votes l k p)) /\
      map_fold (fun key value acc => acc + key * value) 0 t
      = preference_sum l k.

(** ** The preference scale of the response form

    The entries of [preferenceOptions].  The [emoji] field is left out: no
    function modelled here reads it. *)

Record PreferenceOption : Type := mkPreferenceOption {
  label : string;
  value : Z;
  background : string;
  foreground : string
}.

Definition preferenceOptions : list PreferenceOption :=
  [mkPreferenceOption "Doesn't work for me" (-1) "bg-red-200" "text-red-800";
   mkPreferenceOption "Preferably not" 0 "bg-yellow-200" "text-yellow-800";
   mkPreferenceOption "Okay" 1 "bg-green-200" "text-green-800";
   mkPreferenceOption "Good" 2 "bg-emerald-200" "text-emerald-800";
   mkPreferenceOption "Great" 3 "bg-teal-200" "text-teal-800";
   mkPreferenceOption "Amazing" 4 "bg-sky-200" "text-sky-800"].

(** [preferenceOptions.find((option) => option.value === val)] *)
Definition find_preference (val : Z) : option PreferenceOption :=
  find (fun option => bool_decide (value option = val)) preferenceOptions.

(** [arr.indexOf(x)]: the first index holding [x], or -1.  The entries of
    the table are distinct objects with distinct contents, so the identity
    test of [indexOf] is the comparison of the contents. *)
Fixpoint indexOf_from (x : PreferenceOption) (arr : list PreferenceOption)
  (i : Z) : Z :=
  match arr with
  | [] => -1
  | y :: arr' =>
      if bool_decide (value y = value x /\ label y = label x /\
                      background y = background x /\
                      foreground y = foreground x)
      then i else indexOf_from x arr' (i + 1)
  end.

Definition Array_indexOf (arr : list PreferenceOption) (x : PreferenceOption)
  : Z :=
  indexOf_from x arr 0.

(** [arr[i]] for a number [i]: [undefined] outside the array. *)
Definition Array_get {A : Type} (arr : list A) (i : Z) : option A :=
  if i <? 0 then None else arr !! Z.to_nat i.

Definition nextOptionFor (val : Z) : completion PreferenceOption :=
  match find_preference val with
  | None => assertNotNull (Array_get preferenceOptions 0)
  | Some option =>
      let index := Array_indexOf preferenceOptions option in
      if index =? Z.of_nat (length preferenceOptions) - 1
      then assertNotNull (Array_get preferenceOptions 0)
      else assertNotNull (Array_get preferenceOptions (index + 1))
  end.

Definition previousOptionFor (val : Z) : completion PreferenceOption :=
  match find_preference val with
  | None => assertNotNull (Array_get preferenceOptions 0)
  | Some option =>
      let index := Array_indexOf preferenceOptions option in
      if index =? 0
      then assertNotNull
             (Array_get preferenceOptions
                (Z.of_nat (length preferenceOptions) - 1))
      else assertNotNull (Array_get preferenceOptions (index - 1))
  end.

Definition backgroundColorForPreference (val : option Z) : string :=
  match val with
  | None => "bg-gray-200"
  | Some v =>
      match find_preference v with
      | None => "bg-gray-200"
      | Some opt => background opt +:+ " " +:+ foreground opt
      end
  end.

Definition titleForPreference (val : option Z) : string :=
  match val with
  | None => "Not answered"
  | Some v =>
      match find_preference v with
      | None => "?"
      | Some opt => label opt
      end
  end.

(** ** The state of the response form

    [ResponseData] has the fields of a Selected Option.  The state is a
    [Map] from option id to [ResponseData]; its entries are kept in
    insertion order, which [Array.from(d.values())] exposes. *)

Abbreviation ResponseData := SelectedOption.
Abbreviation ResponseState := (list (string * ResponseData)).

(** [m.set(k, v)]: the entry of an existing key is replaced where it
    stands, a new key goes to the end. *)
Fixpoint Map_set {V : Type} (k : string) (v : V) (m : list (string * V))
  : list (string * V) :=
  match m with
  | [] => [(k, v)]
  | (k', v') :: m' =>
      if bool_decide (k' = k) then (k, v) :: m' else (k', v') :: Map_set k v m'
  end.

Definition responseReducer (state : ResponseState) (updated : ResponseData)
  : ResponseState :=
  Map_set (optionId updated) updated state.

Definition emptyMap : ResponseState := [].

Definition responseStateToList (d : ResponseState)
  : completion (list ResponseData) :=
  Array_sort (fun x y => Normal (preference x - preference y)) (map snd d).

Definition forId (state : list ResponseData) (x : string)
  : option ResponseData :=
  find (fun d => bool_decide (optionId d = x)) state.

(** The [onClick] handler of an option badge in [CreateResponse]: the
    action it dispatches. *)
Definition onClick (responseState : list ResponseData) (x : string)
  (reverse : bool) : completion ResponseData :=
  match forId responseState x with
  | None => Normal (mkSelectedOption 0 false x)
  | Some data =>
      let optionTransformer :=
        if reverse then previousOptionFor else nextOptionFor in
      o <- optionTransformer (preference data) ;;
      Normal (mkSelectedOption (value o) (uncertain data) (optionId data))
  end.

(** One click on a badge, [c] being the option id and the reverse flag:
    the handler sees the list of the current render, the reducer takes the
    action it dispatches, and the form is rendered again before the next
    click. *)
Definition click (state : ResponseState) (c : string * bool)
  : completion ResponseState :=
  responseState <- responseStateToList state ;;
  updated <- onClick responseState c.1 c.2 ;;
  Normal (responseReducer state updated).

(** Every entry of the state is filed under its own option id, and no id
    occurs twice. *)
Definition state_wf (state : ResponseState) : Prop :=
  NoDup (map fst state) /\
  Forall (fun kv => optionId kv.2 = kv.1) state.

(** The values [next] and [previous] move to. *)
Definition next_value (v : Z) : Z := if decide (-1 <= v < 4) then v + 1 else -1.
Definition previous_value (v : Z) : Z :=
  if decide (0 <= v <= 4) then v - 1 else if decide (v = -1) then 4 else -1.

(** ** [sortByNullishComparator]

    [arr.sort(...)] sorts the array it is given in place and returns it;
    the value returned here is the content of that array after the call. *)
Definition sortByNullishComparator {T : Type} (arr : list T) (fn : SortOrder T)
  : completion (list T) :=
  Array_sort
    (fun a b =>
       aVal <- fn a ;;
       bVal <- fn b ;;
       match aVal, bVal with
       | None, None => Normal 0
       | None, Some _ => Normal 1
       | Some _, None => Normal (-1)
       | Some av, Some bv => Normal (av - bv)
       end)
    arr.

(** ** The earlier version of the page

    The first copy of the event page in the source has its own
    [rankBySortOrder], [responsePreferenceCardianlity] and [labelResponses].
    Its [rankBySortOrder] sorts the array it is given in place; the second
    component of the result is the content of that array after the call.
    The first three key functions its [labelResponses] passes are, word
    for word, those of the later version: each returns a number or the
    literal [null]. *)
Module Earlier.

(** The value of a key function, declared [number | null | undefined].
    The tie test of this version, [===], tells [null] from [undefined];
    the [== null] tests of the sort do not. *)
Inductive Key : Type :=
| Num (n : Z)
| Null
| Undefined.

Definition KeyFn (T : Type) : Type := T -> completion Key.

(** [a === b] *)
Definition strict_eq (a b : Key) : bool :=
  match a, b with
  | Num x, Num y => x =? y
  | Null, Null => true
  | Undefined, Undefined => true
  | _, _ => false
  end.

(** What a test [== null] leaves of a key: the number, if it is one. *)
Definition nullable (k : Key) : option Z :=
  match k with
  | Num n => Some n
  | Null | Undefined => None
  end.

(** The key function as the later version models it, [null] and
    [undefined] taken together. *)
Definition as_SortOrder {T : Type} (fn : KeyFn T) : SortOrder T :=
  fun a => k <- fn a ;; Normal (nullable k).

(** A key function of [labelResponses]: it returns a number or the
    literal [null]. *)
Definition nullable_key {T : Type} (f : SortOrder T) : KeyFn T :=
  fun a =>
    v <- f a ;;
    Normal (match v with Some n => Num n | None => Null end).

(** The copy of [sortByNullishComparator] of this version. *)
Definition sortByNullishComparator {T : Type} (arr : list T) (fn : KeyFn T)
  : completion (list T) :=
  Array_sort
    (fun a b =>
       aVal <- fn a ;;
       bVal <- fn b ;;
       match aVal, bVal with
       | (Null | Undefined), (Null | Undefined) => Normal 0
       | (Null | Undefined), Num _ => Normal 1
       | Num _, (Null | Undefined) => Normal (-1)
       | Num av, Num bv => Normal (av - bv)
       end)
    arr.

Fixpoint rank_loop {T : Type} (fn : KeyFn T)
  (baseRanking : list (Ranked T)) (result : list (Ranked T))
  : completion (list (Ranked T)) :=
  match baseRanking with
  | [] => Normal result
  | it :: rest =>
      if bool_decide (length result = 0%nat) then rank_loop fn rest [it]
      else
        match last result with
        | None => Throw "lastItem is null"
        | Some lastItem =>
            a <- fn (item it) ;;
            b <- fn (item lastItem) ;;
            let it' :=
              if strict_eq a b then mkRanked (item it) (rank lastItem)
              else mkRanked (item it) (rank lastItem + 1) in
            rank_loop fn rest (result ++ [it'])
        end
  end.

Definition rankBySortOrder {T : Type} (arr : list T) (fn : KeyFn T)
  : completion (list (Ranked T) * list T) :=
  sorted <- sortByNullishComparator arr fn ;;
  let baseRanking := imap (fun i it => mkRanked it (Z.of_nat i)) sorted in
  result <- rank_loop fn baseRanking [] ;;
  Normal (result, sorted).

Record Ranks : Type := mkRanks {
  leastNumberOfNosRank : Z;
  leastNumberOfNosMaybesRank : Z;
  bestScoreRank : Z;
  overallRank : Z
}.

(** One iteration of the loop: [pref] is the inner map of the option when
    the outer map has one, and a new map that is stored nowhere
    otherwise. *)
Definition cardinality_step (responsesPreferenceSet : Cardinality)
  (opt : SelectedOption) : Cardinality :=
  match responsesPreferenceSet !! optionId opt with
  | Some pref =>
      <[optionId opt :=
          <[preference opt := default 0 (pref !! preference opt) + 1]> pref]>
        responsesPreferenceSet
  | None => responsesPreferenceSet
  end.

Definition responsePreferenceCardianlity
  (allChosenOptions : list SelectedOption) : Cardinality :=
  fold_left cardinality_step allChosenOptions ∅.

Definition overall_key (numberOfOptions : Z)
  (leastNumberOfNos leastNumberOfNosMaybes bestScore : list (Ranked Option))
  : SortOrder Option :=
  fun x =>
    match find_by_id leastNumberOfNos (id x),
          find_by_id leastNumberOfNosMaybes (id x),
          find_by_id bestScore (id x) with
    | Some numberOfNosRank, Some numberOfNosMaybesRank, Some bestScoreRank =>
        let rankingComponents :=
          [numberOfNosRank; numberOfNosMaybesRank; bestScoreRank] in
        let aggregateRankScore :=
          fold_left (fun acc x => acc + x)
            (imap (fun i x => Z.of_nat i * numberOfOptions + rank x)
               rankingComponents) 0 in
        Normal (Some aggregateRankScore)
    | _, _, _ => Throw "Could not find rank"
    end.

Definition label_entry
  (leastNumberOfNos leastNumberOfNosMaybes bestScore overall
     : list (Ranked Option)) (x : string) : completion (string * Ranks) :=
  nm <- assertNotNull (find_by_id leastNumberOfNosMaybes x) ;;
  n <- assertNotNull (find_by_id leastNumberOfNos x) ;;
  bs <- assertNotNull (find_by_id bestScore x) ;;
  ov <- assertNotNull (find_by_id overall x) ;;
  Normal (x, mkRanks (rank n) (rank nm) (rank bs) (rank ov)).

Definition labelResponses (options : list Option) (responses : list Response)
  : completion (gmap string Ranks) :=
  let numberOfOptions := Z.of_nat (length options) in
  let allChosenOptions := flat_map selectedOptions responses in
  let card := responsePreferenceCardianlity allChosenOptions in
  r1 <- rankBySortOrder options (nullable_key (leastNumberOfNos_key card)) ;;
  let '(leastNumberOfNos, options) := r1 in
  r2 <-
    rankBySortOrder options (nullable_key (leastNumberOfNosMaybes_key card)) ;;
  let '(leastNumberOfNosMaybes, options) := r2 in
  r3 <- rankBySortOrder options (nullable_key (bestScore_key card)) ;;
  let '(bestScore, options) := r3 in
  r4 <-
    rankBySortOrder options
      (nullable_key
         (overall_key numberOfOptions leastNumberOfNos leastNumberOfNosMaybes
            bestScore)) ;;
  let '(overall, options) := r4 in
  items <-
    mapM (label_entry leastNumberOfNos leastNumberOfNosMaybes bestScore overall)
      (map id options) ;;
  Normal (Map_of_entries items).

End Earlier.

(** * Properties *)

(** ** The completion monad *)

Lemma bind_Normal {A B : Type} (c : completion A) (k : A -> completion B)
  (b : B) :
  bind c k = Normal b <-> exists a, c = Normal a /\ k a = Normal b.
Proof.
  destruct c as [a|msg]; simpl; split.
  - eauto.
  - by intros (a' & [= ->] & ?).
  - done.
  - by intros (a' & ? & ?).
Qed.

(** ** [Array_sort] *)

Section SortFacts.
Context {T : Type}.
Implicit Types (fn : ComparatorFn T) (cmp : T -> T -> Z) (l s : list T).

Lemma sorted_insert_Permutation fn x l r :
  sorted_insert fn x l = Normal r -> r ≡ₚ x :: l.
Proof.
  revert r. induction l as [|y l IH]; simpl; intros r H.
  - by injection H as <-.
  - apply bind_Normal in H as (c & _ & H).
    destruct (c <=? 0).
    + by injection H as <-.
    + apply bind_Normal in H as (r' & Hr' & [= <-]).
      rewrite (IH _ Hr'). apply Permutation_swap.
Qed.

Lemma Array_sort_Permutation fn l s :
  Array_sort fn l = Normal s -> s ≡ₚ l.
Proof.
  revert s. induction l as [|x l IH]; simpl; intros s H.
  - by injection H as <-.
  - apply bind_Normal in H as (s' & Hs' & H).
    rewrite (sorted_insert_Permutation _ _ _ _ H). by rewrite (IH _ Hs').
Qed.

Lemma sorted_insert_ext fn fn' x l :
  (forall y, y ∈ l -> fn x y = fn' x y) ->
  sorted_insert fn x l = sorted_insert fn' x l.
Proof.
  induction l as [|y l IH]; simpl; intros H; [done|].
  rewrite <- (H y) by left. rewrite IH; [done|].
  intros z Hz. apply H. by right.
Qed.

Lemma Array_sort_ext fn fn' l :
  (forall a b, a ∈ l -> b ∈ l -> fn a b = fn' a b) ->
  Array_sort fn l = Array_sort fn' l.
Proof.
  induction l as [|x l IH]; simpl; intros H; [done|].
  rewrite <- IH by (intros; apply H; by right).
  destruct (Array_sort fn l) as [s|msg] eqn:Hs; simpl; [|done].
  apply sorted_insert_ext. intros y Hy. apply H; [left|right].
  by rewrite <- (Array_sort_Permutation _ _ _ Hs).
Qed.

Lemma sorted_insert_pure fn cmp x l :
  (forall y, y ∈ l -> fn x y = Normal (cmp x y)) ->
  exists r, sorted_insert fn x l = Normal r.
Proof.
  induction l as [|y l IH]; simpl; intros H; [eauto|].
  rewrite (H y) by left. simpl. destruct (cmp x y <=? 0); [eauto|].
  destruct IH as [r ->]; [|simpl; eauto].
  intros z Hz. apply H. by right.
Qed.

Lemma Array_sort_pure fn cmp l :
  pure_on fn cmp l -> exists s, Array_sort fn l = Normal s.
Proof.
  induction l as [|x l IH]; simpl; intros H; [eauto|].
  destruct IH as [s Hs]; [intros a b ? ?; apply H; by right|].
  rewrite Hs. simpl. apply (sorted_insert_pure fn cmp).
  intros y Hy. apply H; [left|right].
  by rewrite <- (Array_sort_Permutation _ _ _ Hs).
Qed.

Lemma consistent_on_incl cmp l l' :
  (forall a, a ∈ l -> a ∈ l') -> consistent_on cmp l' -> consistent_on cmp l.
Proof.
  intros Hin [Ht Htr]. split.
  - intros a b Ha Hb. apply Ht; auto.
  - intros a b c Ha Hb Hc. apply Htr; auto.
Qed.

Lemma sorted_insert_sorted fn cmp x l r :
  (forall y, y ∈ l -> fn x y = Normal (cmp x y)) ->
  consistent_on cmp (x :: l) ->
  StronglySorted (fun a b => cmp a b <= 0) l ->
  sorted_insert fn x l = Normal r ->
  StronglySorted (fun a b => cmp a b <= 0) r.
Proof.
  intros Hfn Hc. revert r Hfn.
  induction l as [|y l IH]; simpl; intros r Hfn Hs H.
  - injection H as <-. repeat constructor.
  - rewrite (Hfn y) in H by left. simpl in H.
    apply StronglySorted_inv in Hs as [Hs Hy].
    destruct (cmp x y <=? 0) eqn:Hxy.
    + injection H as <-. apply Z.leb_le in Hxy.
      constructor; [by constructor|].
      constructor; [done|].
      rewrite Forall_forall in Hy |- *. intros z Hz.
      apply (cons_trans _ _ Hc x y z); auto.
      * left.
      * right; left.
      * by do 2 right.
    + apply Z.leb_gt in Hxy.
      apply bind_Normal in H as (r' & Hr' & [= <-]).
      assert (consistent_on cmp (x :: l)) as Hc'.
      { apply (consistent_on_incl cmp _ (x :: y :: l)); [|done].
        intros a [->|Ha]%elem_of_cons; [left|by do 2 right]. }
      constructor.
      * apply IH; auto. intros z Hz. apply Hfn. by right.
      * rewrite (sorted_insert_Permutation _ _ _ _ Hr').
        constructor; [|done].
        apply (cons_total _ _ Hc); [left|right; left|lia].
Qed.

Lemma Array_sort_sorted fn cmp l s :
  pure_on fn cmp l -> consistent_on cmp l ->
  Array_sort fn l = Normal s ->
  StronglySorted (fun a b => cmp a b <= 0) s.
Proof.
  revert s. induction l as [|x l IH]; simpl; intros s Hfn Hc H.
  - injection H as <-. constructor.
  - apply bind_Normal in H as (s' & Hs' & H).
    pose proof (Array_sort_Permutation _ _ _ Hs') as Hp.
    apply (sorted_insert_sorted fn cmp x s'); auto.
    + intros y Hy. apply Hfn; [left|right]. by rewrite <- Hp.
    + apply (consistent_on_incl _ _ (x :: l)); [|done].
      intros a Ha. by rewrite <- Hp.
    + apply IH; auto.
      * intros a b ? ?. apply Hfn; by right.
      * apply (consistent_on_incl _ _ (x :: l)); [|done].
        intros a Ha. by right.
Qed.

(** The sort is stable: the elements of a class whose members compare
    equal to one another keep the order they had in the array. *)
Lemma sorted_insert_stable fn cmp (P : T -> bool) x l r :
  (forall y, y ∈ l -> fn x y = Normal (cmp x y)) ->
  (forall y, y ∈ l -> P x = true -> P y = true -> cmp x y = 0) ->
  sorted_insert fn x l = Normal r ->
  List.filter P r = List.filter P (x :: l).
Proof.
  revert r. induction l as [|y l IH]; simpl; intros r Hfn HP H.
  - by injection H as <-.
  - rewrite (Hfn y) in H by left. simpl in H.
    destruct (cmp x y <=? 0) eqn:Hxy.
    + by injection H as <-.
    + apply Z.leb_gt in Hxy.
      apply bind_Normal in H as (r' & Hr' & [= <-]). simpl.
      rewrite (IH r'); [|intros; apply Hfn; by right
                        |intros; apply HP; [by right|done..]|done].
      simpl. destruct (P x) eqn:Hx, (P y) eqn:Hy; try done.
      specialize (HP y ltac:(left) eq_refl Hy). lia.
Qed.

Lemma Array_sort_stable fn cmp (P : T -> bool) l s :
  pure_on fn cmp l ->
  (forall a b, a ∈ l -> b ∈ l -> P a = true -> P b = true -> cmp a b = 0) ->
  Array_sort fn l = Normal s ->
  List.filter P s = List.filter P l.
Proof.
  revert s. induction l as [|x l IH]; simpl; intros s Hfn HP H.
  - by injection H as <-.
  - apply bind_Normal in H as (s' & Hs' & H).
    pose proof (Array_sort_Permutation _ _ _ Hs') as Hp.
    rewrite (sorted_insert_stable fn cmp P x s' s); [| | |done].
    + simpl. rewrite (IH s'); [done| | |done].
      * intros a b ? ?. apply Hfn; by right.
      * intros a b ? ?. apply HP; by right.
    + intros y Hy. apply Hfn; [left|right]. by rewrite <- Hp.
    + intros y Hy. apply HP; [left|right]. by rewrite <- Hp.
Qed.

(** An array whose every element compares at most equal to its
    successor is returned as it is. *)
Lemma Array_sort_in_order fn cmp l :
  pure_on fn cmp l ->
  (forall (i : nat) a b, l !! i = Some a -> l !! S i = Some b ->
     cmp a b <= 0) ->
  Array_sort fn l = Normal l.
Proof.
  induction l as [|x l IH]; simpl; intros Hfn Hadj; [done|].
  rewrite IH; simpl.
  - destruct l as [|y l]; simpl; [done|].
    rewrite (Hfn x y) by (try left; right; left). simpl.
    by rewrite (proj2 (Z.leb_le _ _) (Hadj 0%nat x y eq_refl eq_refl)).
  - intros a b Ha Hb. apply Hfn; by right.
  - intros i a b Ha Hb. by apply (Hadj (S i)).
Qed.
End SortFacts.

(** ** [rankByComparator] against the ranking rule *)

Section RankFacts.
Context {T : Type}.
Implicit Types (fn : ComparatorFn T) (cmp : T -> T -> Z) (l s : list T).
Implicit Types (r : list (Ranked T)).

Lemma spec_ranks_from_items cmp prev n l :
  map item (spec_ranks_from cmp prev n l) = l.
Proof.
  revert prev n. induction l as [|x l IH]; simpl; intros; [done|].
  by rewrite IH.
Qed.

Lemma spec_ranks_items cmp l : map item (spec_ranks cmp l) = l.
Proof. destruct l; simpl; [done|]. by rewrite spec_ranks_from_items. Qed.

Lemma spec_ranks_from_bounds cmp prev n l e :
  e ∈ spec_ranks_from cmp prev n l ->
  n <= rank e <= n + Z.of_nat (length l).
Proof.
  revert prev n. induction l as [|x l IH]; simpl; intros prev n He.
  - by apply elem_of_nil in He.
  - apply elem_of_cons in He as [->|He].
    + simpl. destruct (cmp x prev =? 0); lia.
    + apply IH in He. destruct (cmp x prev =? 0); lia.
Qed.


Lemma spec_ranks_from_mono cmp prev n l (i j : nat) p q :
  (i <= j)%nat ->
  (mkRanked prev n :: spec_ranks_from cmp prev n l) !! i = Some p ->
  (mkRanked prev n :: spec_ranks_from cmp prev n l) !! j = Some q ->
  rank p <= rank q.
Proof.
  revert prev n i j. induction l as [|x l IH]; intros prev n i j Hij Hp Hq.
  - destruct i, j; simpl in *; try done. injection Hp as <-.
    by injection Hq as <-.
  - destruct i as [|i].
    + simpl in Hp. injection Hp as <-. simpl.
      destruct j as [|j]; [by injection Hq as <-|].
      change ((spec_ranks_from cmp prev n (x :: l)) !! j = Some q) in Hq.
      apply list_elem_of_lookup_2, spec_ranks_from_bounds in Hq. lia.
    + destruct j as [|j]; [lia|].
      simpl in Hp. change ((spec_ranks_from cmp prev n (x :: l)) !! j = Some q) in Hq.
      simpl spec_ranks_from in Hp, Hq. eapply (IH _ _ i j); eauto. lia.
Qed.


Lemma imap_items (g : nat -> Z) l :
  map item (imap (fun i it => mkRanked it (g i)) l) = l.
Proof.
  revert g. induction l as [|x l IH]; simpl; intros g; [done|].
  f_equal. apply (IH (g ∘ S)).
Qed.

Lemma rank_loop_spec fn cmp baseRanking result lastItem :
  last result = Some lastItem ->
  pure_on fn cmp (item lastItem :: map item baseRanking) ->
  rank_loop fn baseRanking result =
    Normal (result ++
            spec_ranks_from cmp (item lastItem) (rank lastItem)
              (map item baseRanking)).
Proof.
  revert result lastItem.
  induction baseRanking as [|it rest IH]; simpl; intros result lastItem Hl Hfn.
  - by rewrite app_nil_r.
  - rewrite bool_decide_eq_false_2; last first.
    { intros ->%nil_length_inv. done. }
    rewrite Hl, Hfn by (try left; right; left). simpl.
    destruct (cmp (item it) (item lastItem) =? 0);
      (erewrite IH;
       [|apply last_snoc|intros a b Ha Hb; apply Hfn; by right];
       simpl; by rewrite <- app_assoc).
Qed.

Lemma rankByComparator_spec_ranks fn cmp arr :
  pure_on fn cmp arr ->
  exists sorted,
    Array_sort fn arr = Normal sorted /\
    rankByComparator arr fn = Normal (spec_ranks cmp sorted).
Proof.
  intros Hfn. destruct (Array_sort_pure fn cmp arr Hfn) as [sorted Hs].
  exists sorted. split; [done|].
  unfold rankByComparator. rewrite Hs. simpl.
  pose proof (Array_sort_Permutation _ _ _ Hs) as Hp.
  destruct sorted as [|x sorted]; [done|]. simpl.
  rewrite (rank_loop_spec fn cmp _ _ (mkRanked x 0)); [|done|]; simpl.
  - by rewrite (imap_items (Z.of_nat ∘ S)).
  - rewrite (imap_items (Z.of_nat ∘ S)). intros a b Ha Hb.
    apply Hfn; by rewrite <- Hp.
Qed.

Lemma sortOrderToComparator_pure (f : SortOrder T) (k : T -> option Z) l :
  (forall a, a ∈ l -> f a = Normal (k a)) ->
  pure_on (sortOrderToComparator f) (nullish_compare k) l.
Proof.
  intros Hf a b Ha Hb. unfold sortOrderToComparator, nullish_compare.
  rewrite (Hf a Ha), (Hf b Hb). simpl. by destruct (k a), (k b).
Qed.
End RankFacts.



(** ** Label selection *)

Lemma determineMostSignificantLabel_cascade rl numberOfOptions :
  label_cascade rl numberOfOptions
    (determineMostSignificantLabel rl numberOfOptions).
Proof.
  unfold determineMostSignificantLabel.
  destruct (overallRank rl =? 0) eqn:H1.
  { constructor. lia. }
  destruct ((overallRank rl =? 1) && (numberOfOptions >? 2)) eqn:H2.
  { apply andb_true_iff in H2 as [H2 H2']. constructor; lia. }
  assert (~ (overallRank rl = 1 /\ numberOfOptions > 2)) as H2'.
  { apply andb_false_iff in H2. lia. }
  destruct (bestScoreRank rl =? 0) eqn:H3.
  { constructor; lia. }
  destruct (leastNumberOfNosRank rl =? 0) eqn:H4.
  { constructor; lia. }
  destruct (leastNumberOfNosMaybesRank rl =? 0) eqn:H5.
  { constructor; lia. }
  destruct (strictlySuperiorRank rl >? 0) eqn:H6; constructor; lia.
Qed.

Lemma label_cascade_functional rl numberOfOptions l1 l2 :
  label_cascade rl numberOfOptions l1 ->
  label_cascade rl numberOfOptions l2 -> l1 = l2.
Proof. intros H1 H2. destruct H1; destruct H2; (done || lia). Qed.

(** Claim C4.  For every rank tuple and option count the label selection
    returns the one label picked by the first matching rule of the
    cascade Best Overall, Second Best, Most Preferred, Fewest Nos, Fewest
    Nos and Maybes, Suboptimal, Nothing. *)
Theorem determineMostSignificantLabel_first_match rl numberOfOptions l :
  determineMostSignificantLabel rl numberOfOptions = l <->
  label_cascade rl numberOfOptions l.
Proof.
  split.
  - intros <-. apply determineMostSignificantLabel_cascade.
  - intros H. eapply label_cascade_functional; [|exact H].
    apply determineMostSignificantLabel_cascade.
Qed.

(** ** The tally *)

Lemma cardinality_step_Normal (m : Cardinality) opt :
  cardinality_step m opt = Normal (tally_add m opt).
Proof.
  unfold cardinality_step, tally_add.
  destruct (m !! optionId opt) as [pref|] eqn:Hm; simpl.
  - by rewrite Hm.
  - rewrite lookup_insert_eq. simpl. by rewrite insert_insert_eq.
Qed.

Lemma foldM_cardinality_step l (m : Cardinality) :
  foldM cardinality_step l m = Normal (fold_left tally_add l m).
Proof.
  revert m. induction l as [|opt l IH]; simpl; intros m; [done|].
  rewrite cardinality_step_Normal. simpl. apply IH.
Qed.

Lemma responsePreferenceCardianlity_Normal l :
  responsePreferenceCardianlity l = Normal (fold_left tally_add l ∅).
Proof. apply foldM_cardinality_step. Qed.

Lemma tally_add_lookup_ne (m : Cardinality) opt (k : string) :
  optionId opt <> k -> tally_add m opt !! k = m !! k.
Proof. intros Hne. unfold tally_add. by rewrite lookup_insert_ne. Qed.

Lemma tally_add_agree (m m' : Cardinality) opt (k : string) :
  m !! k = m' !! k -> tally_add m opt !! k = tally_add m' opt !! k.
Proof.
  intros Hk. destruct (decide (optionId opt = k)) as [<-|Hne].
  - unfold tally_add. rewrite !lookup_insert_eq. by rewrite Hk.
  - by rewrite !tally_add_lookup_ne.
Qed.

Lemma fold_tally_add_agree l (m m' : Cardinality) (k : string) :
  m !! k = m' !! k ->
  fold_left tally_add l m !! k = fold_left tally_add l m' !! k.
Proof.
  revert m m'. induction l as [|opt l IH]; simpl; intros m m' Hk; [done|].
  by apply IH, tally_add_agree.
Qed.

Lemma fold_tally_add_unknown l (m : Cardinality) (k : string) :
  (forall opt, opt ∈ l -> optionId opt <> k) ->
  fold_left tally_add l m !! k = m !! k.
Proof.
  revert m. induction l as [|opt l IH]; simpl; intros m Hl; [done|].
  rewrite IH by (intros; apply Hl; by right).
  apply tally_add_lookup_ne, Hl. left.
Qed.

(** ** Looking ranks up by option id *)

Lemma find_by_id_Some ranked x e :
  find_by_id ranked x = Some e -> id (item e) = x /\ e ∈ ranked.
Proof.
  intros [Hin Hp]%find_some. apply bool_decide_eq_true in Hp.
  by rewrite list_elem_of_In.
Qed.

Lemma find_by_id_is_Some ranked (options : list Option) o :
  map item ranked ≡ₚ options -> o ∈ options ->
  is_Some (find_by_id ranked (id o)).
Proof.
  intros Hp Ho. rewrite <- Hp in Ho.
  apply list_elem_of_fmap in Ho as (e & -> & He).
  destruct (find_by_id ranked (id (item e))) as [e'|] eqn:Hf; [by eexists|].
  apply list_elem_of_In, (find_none _ _ Hf e) in He.
  by apply bool_decide_eq_false in He.
Qed.

Lemma assertNotNull_find ranked (options : list Option) o :
  map item ranked ≡ₚ options -> o ∈ options ->
  exists e, find_by_id ranked (id o) = Some e /\
            assertNotNull (find_by_id ranked (id o)) = Normal e /\
            rank e = rank_of ranked (id o).
Proof.
  intros Hp Ho. destruct (find_by_id_is_Some _ _ _ Hp Ho) as [e He].
  exists e. unfold rank_of. by rewrite He.
Qed.

(** ** Entries of the returned map *)

Lemma mapM_pure {A B : Type} (f : A -> completion B) (g : A -> B) xs :
  (forall x, x ∈ xs -> f x = Normal (g x)) -> mapM f xs = Normal (map g xs).
Proof.
  induction xs as [|x xs IH]; simpl; intros H; [done|].
  rewrite (H x) by left. simpl. rewrite IH; [done|].
  intros y Hy. apply H. by right.
Qed.

Lemma fold_left_insert_lookup {V : Type} (g : string -> V) ids
  (m : gmap string V) (x : string) :
  fold_left (fun m kv => <[kv.1 := kv.2]> m) (map (fun y => (y, g y)) ids) m
    !! x
  = if decide (x ∈ ids) then Some (g x) else m !! x.
Proof.
  revert m. induction ids as [|y ids IH]; intros m.
  - done.
  - cbn [map fold_left]. rewrite IH.
    destruct (decide (x ∈ ids)) as [Hin|Hnin].
    + rewrite decide_True; [done|by right].
    + cbn [fst snd]. destruct (decide (y = x)) as [->|Hne].
      * rewrite lookup_insert_eq. rewrite decide_True; [done|left].
      * rewrite lookup_insert_ne by done.
        rewrite decide_False; [done|].
        intros [->|?]%elem_of_cons; done.
Qed.

Lemma Map_of_entries_lookup {V : Type} (g : string -> V) ids (x : string) :
  Map_of_entries (map (fun y => (y, g y)) ids) !! x
  = if decide (x ∈ ids) then Some (g x) else None.
Proof.
  unfold Map_of_entries. rewrite fold_left_insert_lookup.
  by rewrite lookup_empty.
Qed.

(** ** The five rankings of [labelResponses] *)

Lemma nullish_compare_consistent {T : Type} (k : T -> option Z) l :
  consistent_on (nullish_compare k) l.
Proof.
  split.
  - intros a b _ _. unfold nullish_compare. destruct (k a), (k b); lia.
  - intros a b c _ _ _. unfold nullish_compare.
    destruct (k a), (k b), (k c); lia.
Qed.

Lemma rankBySortOrder_sorted {T : Type} (f : SortOrder T) arr :
  (forall a, a ∈ arr -> exists v, f a = Normal v) ->
  exists s, s ≡ₚ arr /\
    StronglySorted (fun a b => nullish_compare (key_value f) a b <= 0) s /\
    rankBySortOrder arr f = Normal (spec_ranks (nullish_compare (key_value f)) s).
Proof.
  intros Hf.
  assert (pure_on (sortOrderToComparator f) (nullish_compare (key_value f)) arr)
    as Hpure.
  { apply sortOrderToComparator_pure. intros a Ha.
    destruct (Hf a Ha) as [v Hv]. unfold key_value. by rewrite Hv. }
  destruct (rankByComparator_spec_ranks _ _ _ Hpure) as (s & Hs & Hr).
  exists s. split_and!.
  - by apply (Array_sort_Permutation (sortOrderToComparator f)).
  - eapply Array_sort_sorted; eauto using nullish_compare_consistent.
  - done.
Qed.

Lemma rankByComparator_total {T : Type} (fn : ComparatorFn T) arr :
  (forall a b, a ∈ arr -> b ∈ arr -> exists c, fn a b = Normal c) ->
  exists s, s ≡ₚ arr /\
    rankByComparator arr fn = Normal (spec_ranks (cmp_value fn) s).
Proof.
  intros Hfn.
  assert (pure_on fn (cmp_value fn) arr) as Hpure.
  { intros a b Ha Hb. destruct (Hfn a b Ha Hb) as [c Hc].
    unfold cmp_value. by rewrite Hc. }
  destruct (rankByComparator_spec_ranks _ _ _ Hpure) as (s & Hs & Hr).
  exists s. split; [|done]. by apply (Array_sort_Permutation fn).
Qed.

Lemma ranking_items options cmp r :
  ranking options cmp r -> map item r ≡ₚ options.
Proof. intros (s & Hp & ->). by rewrite spec_ranks_items. Qed.

Lemma sorted_ranking_ranking options cmp r :
  sorted_ranking options cmp r -> ranking options cmp r.
Proof. intros (s & Hp & _ & ->). by exists s. Qed.

Lemma sorted_ranking_items options cmp r :
  sorted_ranking options cmp r -> map item r ≡ₚ options.
Proof. intros H. by eapply ranking_items, sorted_ranking_ranking. Qed.

Section Keys.
Variable card : Cardinality.

Lemma leastNumberOfNos_key_Normal x :
  exists v, leastNumberOfNos_key card x = Normal v.
Proof. unfold leastNumberOfNos_key. destruct (card !! id x); eauto. Qed.

Lemma leastNumberOfNosMaybes_key_Normal x :
  exists v, leastNumberOfNosMaybes_key card x = Normal v.
Proof. unfold leastNumberOfNosMaybes_key. destruct (card !! id x); eauto. Qed.

Lemma bestScore_key_Normal x :
  exists v, bestScore_key card x = Normal v.
Proof. unfold bestScore_key. destruct (card !! id x); eauto. Qed.
End Keys.

Lemma aggregateRankScore_sum (N : Z) (bs nm n : Ranked Option) :
  fold_left (fun acc x => acc + x)
    (imap (fun i x => Z.of_nat i * N + rank x) [bs; nm; n]) 0
  = 3 * N + rank bs + rank nm + rank n.
Proof. cbv [imap fold_left compose]. lia. Qed.

Section Composite.
Variable options : list Option.
Variables r1 r2 r3 : list (Ranked Option).
Hypothesis H1 : map item r1 ≡ₚ options.
Hypothesis H2 : map item r2 ≡ₚ options.
Hypothesis H3 : map item r3 ≡ₚ options.

Lemma overall_key_Normal N o :
  o ∈ options ->
  overall_key N r1 r2 r3 o =
    Normal (Some (3 * N + rank_of r3 (id o) + rank_of r2 (id o)
                  + rank_of r1 (id o))).
Proof.
  intros Ho. unfold overall_key.
  destruct (assertNotNull_find _ _ _ H1 Ho) as (e1 & -> & _ & <-).
  destruct (assertNotNull_find _ _ _ H2 Ho) as (e2 & -> & _ & <-).
  destruct (assertNotNull_find _ _ _ H3 Ho) as (e3 & -> & _ & <-).
  by rewrite aggregateRankScore_sum.
Qed.

Lemma strictlySuperior_cmp_Normal a b :
  a ∈ options -> b ∈ options ->
  strictlySuperior_cmp r1 r2 r3 a b =
    Normal
      (let nosComp := rank_of r1 (id a) - rank_of r1 (id b) in
       let nosMaybesComp := rank_of r2 (id a) - rank_of r2 (id b) in
       let scoreComp := rank_of r3 (id a) - rank_of r3 (id b) in
       if (nosComp =? 0) && (nosMaybesComp =? 0) && (scoreComp =? 0) then 0
       else if (nosComp <=? 0) && (nosMaybesComp <=? 0) && (scoreComp <=? 0)
       then -1
       else if (nosComp >=? 0) && (nosMaybesComp >=? 0) && (scoreComp >=? 0)
       then 1
       else 0).
Proof.
  intros Ha Hb. unfold strictlySuperior_cmp.
  destruct (assertNotNull_find _ _ _ H1 Ha) as (? & _ & -> & <-).
  destruct (assertNotNull_find _ _ _ H1 Hb) as (? & _ & -> & <-).
  destruct (assertNotNull_find _ _ _ H2 Ha) as (? & _ & -> & <-).
  destruct (assertNotNull_find _ _ _ H2 Hb) as (? & _ & -> & <-).
  destruct (assertNotNull_find _ _ _ H3 Ha) as (? & _ & -> & <-).
  destruct (assertNotNull_find _ _ _ H3 Hb) as (? & _ & -> & <-).
  cbn [bind].
  repeat match goal with |- context [if ?c then _ else _] =>
    destruct c end; done.
Qed.

Variables r4 r5 : list (Ranked Option).
Hypothesis H4 : map item r4 ≡ₚ options.
Hypothesis H5 : map item r5 ≡ₚ options.

Lemma label_entry_Normal x :
  x ∈ map id options ->
  label_entry r1 r2 r3 r4 r5 x = Normal (x, labels_at r1 r2 r3 r4 r5 x).
Proof.
  intros (o & -> & Ho)%list_elem_of_fmap. unfold label_entry, labels_at.
  destruct (assertNotNull_find _ _ _ H1 Ho) as (? & _ & -> & <-).
  destruct (assertNotNull_find _ _ _ H2 Ho) as (? & _ & -> & <-).
  destruct (assertNotNull_find _ _ _ H3 Ho) as (? & _ & -> & <-).
  destruct (assertNotNull_find _ _ _ H4 Ho) as (? & _ & -> & <-).
  destruct (assertNotNull_find _ _ _ H5 Ho) as (? & _ & -> & <-).
  done.
Qed.
End Composite.

Lemma labelResponses_pipeline options responses :
  exists card r1 r2 r3 r4 r5,
    pipeline options responses card r1 r2 r3 r4 r5 /\
    labelResponses options responses =
      Normal (Map_of_entries
                (map (fun x => (x, labels_at r1 r2 r3 r4 r5 x))
                   (map id options))).
Proof.
  unfold labelResponses.
  pose proof (responsePreferenceCardianlity_Normal
                (flat_map selectedOptions responses)) as Hcard.
  rewrite Hcard. revert Hcard.
  set (card := fold_left tally_add _ ∅). intros Hcard. cbn [bind].
  destruct (rankBySortOrder_sorted (leastNumberOfNos_key card) options)
    as (s1 & Hp1 & Hs1 & Hr1); [intros; apply leastNumberOfNos_key_Normal|].
  destruct (rankBySortOrder_sorted (leastNumberOfNosMaybes_key card) options)
    as (s2 & Hp2 & Hs2 & Hr2); [intros; apply leastNumberOfNosMaybes_key_Normal|].
  destruct (rankBySortOrder_sorted (bestScore_key card) options)
    as (s3 & Hp3 & Hs3 & Hr3); [intros; apply bestScore_key_Normal|].
  rewrite Hr1, Hr2, Hr3. cbn [bind]. revert Hr1 Hr2 Hr3.
  set (r1 := spec_ranks _ s1). set (r2 := spec_ranks _ s2).
  set (r3 := spec_ranks _ s3). intros Hr1 Hr2 Hr3.
  assert (map item r1 ≡ₚ options) as Hi1 by (unfold r1; by rewrite spec_ranks_items).
  assert (map item r2 ≡ₚ options) as Hi2 by (unfold r2; by rewrite spec_ranks_items).
  assert (map item r3 ≡ₚ options) as Hi3 by (unfold r3; by rewrite spec_ranks_items).
  destruct (rankBySortOrder_sorted
              (overall_key (Z.of_nat (length options)) r1 r2 r3) options)
    as (s4 & Hp4 & Hs4 & Hr4).
  { intros o Ho. rewrite (overall_key_Normal options) by done. eauto. }
  destruct (rankByComparator_total (strictlySuperior_cmp r1 r2 r3) options)
    as (s5 & Hp5 & Hr5).
  { intros a b Ha Hb.
    rewrite (strictlySuperior_cmp_Normal options) by done. eauto. }
  rewrite Hr4, Hr5. cbn [bind]. revert Hr4 Hr5.
  set (r4 := spec_ranks _ s4). set (r5 := spec_ranks _ s5). intros Hr4 Hr5.
  assert (map item r4 ≡ₚ options) as Hi4 by (unfold r4; by rewrite spec_ranks_items).
  assert (map item r5 ≡ₚ options) as Hi5 by (unfold r5; by rewrite spec_ranks_items).
  rewrite (mapM_pure _ (fun x => (x, labels_at r1 r2 r3 r4 r5 x)));
    [|intros x Hx; by apply (label_entry_Normal options)].
  cbn [bind]. exists card, r1, r2, r3, r4, r5. split; [|done].
  split; try done;
    [by exists s1|by exists s2|by exists s3|by exists s4|by exists s5].
Qed.

Lemma pipeline_items options responses card r1 r2 r3 r4 r5 :
  pipeline options responses card r1 r2 r3 r4 r5 ->
  map item r1 ≡ₚ options /\ map item r2 ≡ₚ options /\
  map item r3 ≡ₚ options /\ map item r4 ≡ₚ options /\
  map item r5 ≡ₚ options.
Proof.
  intros []. split_and!;
    eauto using sorted_ranking_items, ranking_items.
Qed.

(** Claim C8.  For every option list and response list, every lookup of a
    rank by option id made after the ranked lists are built finds its
    entry: the key function of the overall criterion never reaches
    [throw new Error("Could not find rank")], no [assertNotNull] of the
    dominance comparator or of the final map construction fails,
    [labelResponses] returns normally, and the returned map has an entry
    for every option of the input. *)
Theorem labelResponses_lookups_succeed options responses :
  exists card r1 r2 r3 r4 r5 labels,
    responsePreferenceCardianlity (flat_map selectedOptions responses)
      = Normal card /\
    rankBySortOrder options (leastNumberOfNos_key card) = Normal r1 /\
    rankBySortOrder options (leastNumberOfNosMaybes_key card) = Normal r2 /\
    rankBySortOrder options (bestScore_key card) = Normal r3 /\
    rankBySortOrder options
      (overall_key (Z.of_nat (length options)) r1 r2 r3) = Normal r4 /\
    rankByComparator options (strictlySuperior_cmp r1 r2 r3) = Normal r5 /\
    labelResponses options responses = Normal labels /\
    forall o, o ∈ options ->
      is_Some (find_by_id r1 (id o)) /\
      is_Some (find_by_id r2 (id o)) /\
      is_Some (find_by_id r3 (id o)) /\
      is_Some (find_by_id r4 (id o)) /\
      is_Some (find_by_id r5 (id o)) /\
      (exists v,
         overall_key (Z.of_nat (length options)) r1 r2 r3 o
         = Normal (Some v)) /\
      (forall b, b ∈ options ->
         exists c, strictlySuperior_cmp r1 r2 r3 o b = Normal c) /\
      (exists rl, label_entry r1 r2 r3 r4 r5 (id o) = Normal (id o, rl) /\
                  labels !! id o = Some rl).
Proof.
  destruct (labelResponses_pipeline options responses)
    as (card & r1 & r2 & r3 & r4 & r5 & Hpipe & Hrun).
  destruct (pipeline_items _ _ _ _ _ _ _ _ Hpipe)
    as (Hi1 & Hi2 & Hi3 & Hi4 & Hi5).
  exists card, r1, r2, r3, r4, r5. eexists.
  destruct Hpipe. split_and!; try done.
  intros o Ho. split_and!; eauto using find_by_id_is_Some.
  - rewrite (overall_key_Normal options) by done. eauto.
  - intros b Hb. rewrite (strictlySuperior_cmp_Normal options) by done. eauto.
  - eexists. split.
    + apply (label_entry_Normal options); try done.
      by apply list_elem_of_fmap_2.
    + rewrite Map_of_entries_lookup. rewrite decide_True; [done|].
      by apply list_elem_of_fmap_2.
Qed.

(** ** Ranks of tied and of dominated options *)

Lemma spec_ranks_from_all_tied {T : Type} (cmp : T -> T -> Z) prev n l e :
  (forall a b, a ∈ prev :: l -> b ∈ prev :: l -> cmp a b = 0) ->
  e ∈ spec_ranks_from cmp prev n l -> rank e = n.
Proof.
  revert prev n. induction l as [|x l IH]; simpl; intros prev n Hc He.
  - by apply elem_of_nil in He.
  - rewrite (Hc x prev) in He by (try left; right; left). simpl in He.
    apply elem_of_cons in He as [->|He]; [done|].
    apply (IH x n); [|done]. intros a b Ha Hb. apply Hc; by right.
Qed.

Lemma spec_ranks_all_tied {T : Type} (cmp : T -> T -> Z) s e :
  (forall a b, a ∈ s -> b ∈ s -> cmp a b = 0) ->
  e ∈ spec_ranks cmp s -> rank e = 0.
Proof.
  destruct s as [|x s]; simpl; intros Hc He.
  - by apply elem_of_nil in He.
  - apply elem_of_cons in He as [->|He]; [done|].
    by apply (spec_ranks_from_all_tied cmp x 0 s).
Qed.

Lemma rank_of_all_tied options cmp r x :
  ranking options cmp r ->
  (forall a b, a ∈ options -> b ∈ options -> cmp a b = 0) ->
  rank_of r x = 0.
Proof.
  intros (s & Hp & ->) Hc. unfold rank_of.
  destruct (find_by_id _ x) as [e|] eqn:He; [|done].
  apply find_by_id_Some in He as [_ He].
  apply (spec_ranks_all_tied cmp s); [|done].
  intros a b Ha Hb. apply Hc; by rewrite <- Hp.
Qed.

Lemma spec_ranks_from_same_rank {T : Type} (cmp : T -> T -> Z) prev n l e :
  (forall a b c, cmp a b <= 0 -> cmp b c <= 0 -> cmp a c <= 0) ->
  e ∈ spec_ranks_from cmp prev n l -> rank e = n ->
  cmp (item e) prev <= 0.
Proof.
  intros Htr. revert prev n. induction l as [|x l IH]; simpl; intros prev n He Hn.
  - by apply elem_of_nil in He.
  - destruct (cmp x prev =? 0) eqn:Hx.
    + apply Z.eqb_eq in Hx.
      apply elem_of_cons in He as [->|He]; simpl; [lia|].
      apply (Htr _ x); [by apply (IH x n)|lia].
    + apply elem_of_cons in He as [->|He]; simpl in *; [lia|].
      apply spec_ranks_from_bounds in He. lia.
Qed.

Lemma spec_ranks_zero_least {T : Type} (cmp : T -> T -> Z) s e y :
  (forall a, cmp a a <= 0) ->
  (forall a b c, cmp a b <= 0 -> cmp b c <= 0 -> cmp a c <= 0) ->
  StronglySorted (fun a b => cmp a b <= 0) s ->
  e ∈ spec_ranks cmp s -> rank e = 0 -> y ∈ s ->
  cmp (item e) y <= 0.
Proof.
  intros Hrefl Htr Hs He Hr Hy. destruct s as [|x s]; simpl in He.
  { by apply elem_of_nil in He. }
  apply StronglySorted_inv in Hs as [_ Hx]. rewrite Forall_forall in Hx.
  assert (cmp (item e) x <= 0) as Hex.
  { apply elem_of_cons in He as [->|He]; simpl; [done|].
    by apply (spec_ranks_from_same_rank cmp x 0 s). }
  apply elem_of_cons in Hy as [->|Hy]; [done|].
  apply (Htr _ x); auto.
Qed.

Lemma nullish_compare_refl {T : Type} (k : T -> option Z) a :
  nullish_compare k a a <= 0.
Proof. unfold nullish_compare. destruct (k a); lia. Qed.

Lemma nullish_compare_trans {T : Type} (k : T -> option Z) a b c :
  nullish_compare k a b <= 0 -> nullish_compare k b c <= 0 ->
  nullish_compare k a c <= 0.
Proof. unfold nullish_compare. destruct (k a), (k b), (k c); lia. Qed.

Lemma labelResponses_lookup options responses labels card r1 r2 r3 r4 r5 o :
  labelResponses options responses =
    Normal (Map_of_entries
              (map (fun x => (x, labels_at r1 r2 r3 r4 r5 x))
                 (map id options))) ->
  labelResponses options responses = Normal labels ->
  pipeline options responses card r1 r2 r3 r4 r5 ->
  o ∈ options ->
  labels !! id o = Some (labels_at r1 r2 r3 r4 r5 (id o)).
Proof.
  intros Hrun Hl _ Ho. rewrite Hrun in Hl. injection Hl as <-.
  rewrite Map_of_entries_lookup. rewrite decide_True; [done|].
  by apply list_elem_of_fmap_2.
Qed.

(** Claim C5.  If each of A's fewest-nos, fewest-nos-and-maybes and
    best-score ranks is at most the corresponding rank of B and one of them
    is strictly smaller, then B's overall rank is not 0 and B is not
    labelled Best Overall. *)
Theorem dominated_option_not_BestOverall options responses labels A B ra rb :
  labelResponses options responses = Normal labels ->
  A ∈ options -> B ∈ options ->
  labels !! id A = Some ra -> labels !! id B = Some rb ->
  leastNumberOfNosRank ra <= leastNumberOfNosRank rb ->
  leastNumberOfNosMaybesRank ra <= leastNumberOfNosMaybesRank rb ->
  bestScoreRank ra <= bestScoreRank rb ->
  (leastNumberOfNosRank ra < leastNumberOfNosRank rb \/
   leastNumberOfNosMaybesRank ra < leastNumberOfNosMaybesRank rb \/
   bestScoreRank ra < bestScoreRank rb) ->
  overallRank rb <> 0 /\
  label_of options labels (id B) <> Some BestOverall.
Proof.
  intros Hl HA HB Hra Hrb Hn Hnm Hbs Hlt.
  destruct (labelResponses_pipeline options responses)
    as (card & r1 & r2 & r3 & r4 & r5 & Hpipe & Hrun).
  rewrite (labelResponses_lookup _ _ _ _ _ _ _ _ _ _ Hrun Hl Hpipe HA) in Hra.
  rewrite (labelResponses_lookup _ _ _ _ _ _ _ _ _ _ Hrun Hl Hpipe HB) in Hrb.
  injection Hra as <-. injection Hrb as <-. simpl in *.
  destruct (pipeline_items _ _ _ _ _ _ _ _ Hpipe)
    as (Hi1 & Hi2 & Hi3 & Hi4 & Hi5).
  assert (rank_of r4 (id B) <> 0) as Hov.
  { intros Hz. unfold rank_of in Hz.
    destruct (find_by_id_is_Some _ _ _ Hi4 HB) as [e He].
    rewrite He in Hz. apply find_by_id_Some in He as [Hid He].
    destruct (pipe_overall _ _ _ _ _ _ _ _ Hpipe) as (s4 & Hp4 & Hs4 & ->).
    assert (item e ∈ options) as HeB.
    { rewrite <- Hp4, <- (spec_ranks_items (nullish_compare
        (key_value (overall_key (Z.of_nat (length options)) r1 r2 r3))) s4).
      by apply list_elem_of_fmap_2. }
    assert (A ∈ s4) as HA4 by by rewrite Hp4.
    pose proof (spec_ranks_zero_least _ s4 e A
                  (nullish_compare_refl _) (nullish_compare_trans _)
                  Hs4 He Hz HA4) as Hle.
    unfold nullish_compare, key_value in Hle.
    rewrite !(overall_key_Normal options) in Hle by done.
    rewrite Hid in Hle. lia. }
  split; [done|].
  unfold label_of. rewrite Hl in Hrun. injection Hrun as ->.
  rewrite Map_of_entries_lookup.
  rewrite decide_True by by apply list_elem_of_fmap_2.
  simpl. unfold determineMostSignificantLabel. simpl.
  apply Z.eqb_neq in Hov. rewrite Hov.
  repeat match goal with |- context [if ?c then _ else _] =>
    destruct c end; done.
Qed.

Lemma dominated_option_not_BestOverall_witness :
  overallRank (mkRankLabels 1 1 1 1 1) <> 0 /\
  label_of scenario_options scenario_labels "B" <> Some BestOverall.
Proof.
  apply (dominated_option_not_BestOverall scenario_options scenario_responses
           scenario_labels (mkOption "A" "2023-05-01")
           (mkOption "B" "2023-05-02")
           (mkRankLabels 0 0 0 0 0) (mkRankLabels 1 1 1 1 1)).
  - vm_compute. reflexivity.
  - left.
  - right. left.
  - vm_compute. reflexivity.
  - vm_compute. reflexivity.
  - simpl. lia.
  - simpl. lia.
  - simpl. lia.
  - simpl. lia.
Defined.

(** Claim C7.  When no response selects any listed option (in particular
    when there is no response at all), every option has no tally, is given
    rank 0 under each of the five criteria, the overall one included, and
    is labelled Best Overall. *)
Theorem no_selection_all_BestOverall options responses :
  (forall r s o, r ∈ responses -> s ∈ selectedOptions r -> o ∈ options ->
     optionId s <> id o) ->
  exists card labels,
    responsePreferenceCardianlity (flat_map selectedOptions responses)
      = Normal card /\
    labelResponses options responses = Normal labels /\
    forall o, o ∈ options ->
      card !! id o = None /\
      labels !! id o = Some (mkRankLabels 0 0 0 0 0) /\
      label_of options labels (id o) = Some BestOverall.
Proof.
  intros Hno.
  destruct (labelResponses_pipeline options responses)
    as (card & r1 & r2 & r3 & r4 & r5 & Hpipe & Hrun).
  destruct (pipeline_items _ _ _ _ _ _ _ _ Hpipe)
    as (Hi1 & Hi2 & Hi3 & Hi4 & Hi5).
  exists card. eexists. split; [apply Hpipe|]. split; [exact Hrun|].
  assert (forall o, o ∈ options -> card !! id o = None) as Hcard.
  { intros o Ho. rewrite (pipe_card _ _ _ _ _ _ _ _ Hpipe).
    rewrite fold_tally_add_unknown; [apply lookup_empty|].
    intros s (r & Hr & Hs)%list_elem_of_In%in_flat_map.
    apply (Hno r s o); [by apply list_elem_of_In..|done]. }
  assert (forall x, rank_of r1 x = 0) as Hz1.
  { intros x. eapply rank_of_all_tied.
    - eapply sorted_ranking_ranking, Hpipe.
    - intros a b Ha Hb. unfold nullish_compare, key_value, leastNumberOfNos_key.
      by rewrite !Hcard. }
  assert (forall x, rank_of r2 x = 0) as Hz2.
  { intros x. eapply rank_of_all_tied.
    - eapply sorted_ranking_ranking, Hpipe.
    - intros a b Ha Hb.
      unfold nullish_compare, key_value, leastNumberOfNosMaybes_key.
      by rewrite !Hcard. }
  assert (forall x, rank_of r3 x = 0) as Hz3.
  { intros x. eapply rank_of_all_tied.
    - eapply sorted_ranking_ranking, Hpipe.
    - intros a b Ha Hb. unfold nullish_compare, key_value, bestScore_key.
      by rewrite !Hcard. }
  assert (forall x, rank_of r4 x = 0) as Hz4.
  { intros x. eapply rank_of_all_tied.
    - eapply sorted_ranking_ranking, Hpipe.
    - intros a b Ha Hb. unfold nullish_compare, key_value.
      rewrite !(overall_key_Normal options) by done.
      rewrite !Hz1, !Hz2, !Hz3. lia. }
  assert (forall x, rank_of r5 x = 0) as Hz5.
  { intros x. eapply rank_of_all_tied.
    - apply Hpipe.
    - intros a b Ha Hb. unfold cmp_value.
      rewrite (strictlySuperior_cmp_Normal options) by done.
      by rewrite !Hz1, !Hz2, !Hz3. }
  intros o Ho. split; [by apply Hcard|].
  assert (Map_of_entries
            (map (fun x => (x, labels_at r1 r2 r3 r4 r5 x)) (map id options))
          !! id o = Some (mkRankLabels 0 0 0 0 0)) as Hlook.
  { rewrite Map_of_entries_lookup.
    rewrite decide_True by by apply list_elem_of_fmap_2.
    unfold labels_at. by rewrite Hz1, Hz2, Hz3, Hz4, Hz5. }
  split; [done|]. unfold label_of. by rewrite Hlook.
Qed.

Lemma no_selection_all_BestOverall_witness :
  exists card labels,
    responsePreferenceCardianlity (flat_map selectedOptions []) = Normal card /\
    labelResponses scenario_options [] = Normal labels /\
    forall o, o ∈ scenario_options ->
      card !! id o = None /\
      labels !! id o = Some (mkRankLabels 0 0 0 0 0) /\
      label_of scenario_options labels (id o) = Some BestOverall.
Proof.
  apply (no_selection_all_BestOverall scenario_options []).
  intros r s o Hr. by apply elem_of_nil in Hr.
Defined.

(** ** What the output depends on *)

Lemma rank_loop_ext {T : Type} (fn fn' : ComparatorFn T) (l : list T)
  baseRanking result :
  (forall a b, a ∈ l -> b ∈ l -> fn a b = fn' a b) ->
  (forall it, it ∈ baseRanking -> item it ∈ l) ->
  (forall e, last result = Some e -> item e ∈ l) ->
  rank_loop fn baseRanking result = rank_loop fn' baseRanking result.
Proof.
  intros Hfn. revert result.
  induction baseRanking as [|it rest IH]; simpl; intros result Hb Hl; [done|].
  assert (item it ∈ l) as Hit by (apply Hb; left).
  assert (forall it', it' ∈ rest -> item it' ∈ l) as Hrest
    by (intros; apply Hb; by right).
  case_bool_decide.
  - apply IH; [done|]. by intros e [= <-].
  - destruct (last result) as [lastItem|] eqn:Hlast; [|done].
    rewrite (Hfn (item it) (item lastItem)) by auto.
    destruct (fn' (item it) (item lastItem)) as [c|msg]; simpl; [|done].
    apply IH; [done|]. intros e. rewrite last_snoc. intros [= <-].
    by destruct (c =? 0).
Qed.

Lemma rankByComparator_ext {T : Type} (fn fn' : ComparatorFn T) arr :
  (forall a b, a ∈ arr -> b ∈ arr -> fn a b = fn' a b) ->
  rankByComparator arr fn = rankByComparator arr fn'.
Proof.
  intros Hfn. unfold rankByComparator.
  rewrite (Array_sort_ext fn fn') by done.
  destruct (Array_sort fn' arr) as [s|msg] eqn:Hs; simpl; [|done].
  apply (rank_loop_ext fn fn' arr); [done| |done].
  intros it Hit. rewrite <- (Array_sort_Permutation _ _ _ Hs).
  rewrite <- (imap_items Z.of_nat s). by apply list_elem_of_fmap_2.
Qed.

Lemma rankBySortOrder_ext {T : Type} (f f' : SortOrder T) arr :
  (forall a, a ∈ arr -> f a = f' a) ->
  rankBySortOrder arr f = rankBySortOrder arr f'.
Proof.
  intros Hf. apply rankByComparator_ext. intros a b Ha Hb.
  unfold sortOrderToComparator. by rewrite (Hf a Ha), (Hf b Hb).
Qed.

(** [labelResponses] reads the responses only through the tallies of the
    listed options. *)
Lemma labelResponses_tally_agree options responses responses' :
  (forall o, o ∈ options ->
     fold_left tally_add (flat_map selectedOptions responses) ∅ !! id o
     = fold_left tally_add (flat_map selectedOptions responses') ∅ !! id o) ->
  labelResponses options responses = labelResponses options responses'.
Proof.
  intros Hagree. unfold labelResponses.
  rewrite !responsePreferenceCardianlity_Normal. cbn [bind].
  set (card := fold_left tally_add (flat_map selectedOptions responses) ∅)
    in *.
  set (card' := fold_left tally_add (flat_map selectedOptions responses') ∅)
    in *.
  rewrite (rankBySortOrder_ext (leastNumberOfNos_key card)
             (leastNumberOfNos_key card')); last first.
  { intros o Ho. unfold leastNumberOfNos_key. by rewrite Hagree. }
  rewrite (rankBySortOrder_ext (leastNumberOfNosMaybes_key card)
             (leastNumberOfNosMaybes_key card')); last first.
  { intros o Ho. unfold leastNumberOfNosMaybes_key. by rewrite Hagree. }
  rewrite (rankBySortOrder_ext (bestScore_key card) (bestScore_key card'));
    last first.
  { intros o Ho. unfold bestScore_key. by rewrite Hagree. }
  done.
Qed.

(** Claim C9.  A Selected Option whose [optionId] is the id of no listed
    option can be added to, or removed from, the selections of a response
    without changing what the ranking computation returns: the call
    returns normally and the returned map has no entry for that id. *)
Theorem unknown_selection_is_ignored options before after who sel1 sel2 s :
  (forall o, o ∈ options -> id o <> optionId s) ->
  labelResponses options
    (before ++ mkResponse who (sel1 ++ s :: sel2) :: after)
  = labelResponses options (before ++ mkResponse who (sel1 ++ sel2) :: after)
  /\
  exists labels,
    labelResponses options
      (before ++ mkResponse who (sel1 ++ s :: sel2) :: after) = Normal labels /\
    labels !! optionId s = None.
Proof.
  intros Hunknown. split.
  - apply labelResponses_tally_agree. intros o Ho.
    rewrite !flat_map_app. simpl. rewrite <- !app_assoc.
    rewrite !fold_left_app. simpl.
    apply fold_tally_add_agree, fold_tally_add_agree.
    apply tally_add_lookup_ne. intros Heq. by apply (Hunknown o).
  - destruct (labelResponses_pipeline options
                (before ++ mkResponse who (sel1 ++ s :: sel2) :: after))
      as (card & r1 & r2 & r3 & r4 & r5 & _ & Hrun).
    eexists. split; [exact Hrun|].
    rewrite Map_of_entries_lookup. rewrite decide_False; [done|].
    intros (o & Heq & Ho)%list_elem_of_fmap. by apply (Hunknown o).
Qed.

Lemma unknown_selection_is_ignored_witness :
  labelResponses scenario_options
    ([] ++ mkResponse (mkRespondent None)
             ([mkSelectedOption 4 false "A"]
                ++ mkSelectedOption (-1) true "C" :: []) :: [])
  = labelResponses scenario_options
      ([] ++ mkResponse (mkRespondent None)
               ([mkSelectedOption 4 false "A"] ++ []) :: [])
  /\
  exists labels,
    labelResponses scenario_options
      ([] ++ mkResponse (mkRespondent None)
               ([mkSelectedOption 4 false "A"]
                  ++ mkSelectedOption (-1) true "C" :: []) :: [])
    = Normal labels /\
    labels !! optionId (mkSelectedOption (-1) true "C") = None.
Proof.
  apply (unknown_selection_is_ignored scenario_options [] []
           (mkRespondent None) [mkSelectedOption 4 false "A"] []
           (mkSelectedOption (-1) true "C")).
  intros o Ho. unfold scenario_options in Ho.
  apply elem_of_cons in Ho as [->|Ho]; [done|].
  apply elem_of_cons in Ho as [->|Ho]; [done|].
  by apply elem_of_nil in Ho.
Defined.

Lemma tally_add_uncertain (m : Cardinality) s s' :
  preference s = preference s' -> optionId s = optionId s' ->
  tally_add m s = tally_add m s'.
Proof. intros Hp Hi. unfold tally_add. by rewrite Hp, Hi. Qed.

Lemma fold_tally_add_uncertain l l' (m : Cardinality) :
  Forall2 (fun s s' => preference s = preference s' /\ optionId s = optionId s')
    l l' ->
  fold_left tally_add l m = fold_left tally_add l' m.
Proof.
  intros H. revert m. induction H as [|s s' l l' [Hp Hi] _ IH]; simpl; intros m.
  - done.
  - rewrite (tally_add_uncertain m s s') by done. apply IH.
Qed.

Lemma same_up_to_uncertain_flat responses responses' :
  same_up_to_uncertain responses responses' ->
  Forall2 (fun s s' => preference s = preference s' /\ optionId s = optionId s')
    (flat_map selectedOptions responses) (flat_map selectedOptions responses').
Proof.
  induction 1 as [|r r' rs rs' [_ Hsel] _ IH]; simpl.
  - constructor.
  - by apply Forall2_app.
Qed.

(** Claim C10.  Two inputs with the same options whose Selected Options
    have the same option ids and preferences, and differ at most in their
    [uncertain] flags, are given the same output. *)
Theorem uncertain_flag_has_no_influence options responses responses' :
  same_up_to_uncertain responses responses' ->
  labelResponses options responses = labelResponses options responses'.
Proof.
  intros Hsame. apply labelResponses_tally_agree. intros o _.
  by rewrite (fold_tally_add_uncertain _ _ _
                (same_up_to_uncertain_flat _ _ Hsame)).
Qed.

Lemma uncertain_flag_has_no_influence_witness :
  labelResponses scenario_options
    [mkResponse (mkRespondent None) [mkSelectedOption 4 false "A"]]
  = labelResponses scenario_options
      [mkResponse (mkRespondent None) [mkSelectedOption 4 true "A"]].
Proof.
  apply (uncertain_flag_has_no_influence scenario_options).
  repeat constructor.
Defined.

(** ** Absent keys *)

Lemma StronglySorted_lookup {A : Type} (R : A -> A -> Prop) (l : list A)
  (i j : nat) a b :
  StronglySorted R l -> (i < j)%nat -> l !! i = Some a -> l !! j = Some b ->
  R a b.
Proof.
  intros Hs. revert i j. induction Hs as [|x l Hs IH Hx]; intros i j Hij Ha Hb.
  - done.
  - destruct j as [|j]; [lia|]. simpl in Hb. destruct i as [|i].
    + injection Ha as <-. rewrite Forall_forall in Hx.
      by eapply Hx, list_elem_of_lookup_2.
    + simpl in Ha. apply (IH i j); [lia|done..].
Qed.

Lemma rankBySortOrder_nullish_ordering {T : Type} (f : SortOrder T) arr :
  (forall a, a ∈ arr -> exists v, f a = Normal v) ->
  exists r, rankBySortOrder arr f = Normal r /\
            nullish_ordering (key_value f) (sortOrderToComparator f) arr r.
Proof.
  intros Hf. destruct (rankBySortOrder_sorted f arr Hf) as (s & Hp & Hs & Hr).
  eexists. split; [exact Hr|]. split.
  - intros a b Ha Hb. destruct (Hf a Ha) as [va Hva].
    destruct (Hf b Hb) as [vb Hvb].
    unfold sortOrderToComparator, key_value. rewrite Hva, Hvb. simpl.
    destruct va, vb; eexists; split; try done; lia.
  - intros i j p q Hij Hi Hj.
    assert (nullish_compare (key_value f) (item p) (item q) <= 0) as Hle.
    { apply (StronglySorted_lookup
               (fun a b => nullish_compare (key_value f) a b <= 0) s i j);
        [done..| |].
      - rewrite <- (spec_ranks_items (nullish_compare (key_value f)) s).
        rewrite list_lookup_fmap. by rewrite Hi.
      - rewrite <- (spec_ranks_items (nullish_compare (key_value f)) s).
        rewrite list_lookup_fmap. by rewrite Hj. }
    unfold nullish_compare in Hle.
    destruct (key_value f (item p)), (key_value f (item q)); try done; lia.
Qed.

(** Claim C3, as amended.  In each of the four key-based criteria an
    absent key compares equal to an absent key and greater than a present
    one, present keys compare as numbers, and the ranked list has the
    present keys in ascending order before every absent key.  An option no
    Selected Option refers to has no tally entry, and its fewest-nos,
    fewest-nos-and-maybes and best-score keys are absent rather than 0; its
    key in the overall criterion is the aggregate of its ranks, which is
    always present. *)
Theorem absent_keys_sort_last options responses :
  exists card r1 r2 r3 r4,
    responsePreferenceCardianlity (flat_map selectedOptions responses)
      = Normal card /\
    rankBySortOrder options (leastNumberOfNos_key card) = Normal r1 /\
    rankBySortOrder options (leastNumberOfNosMaybes_key card) = Normal r2 /\
    rankBySortOrder options (bestScore_key card) = Normal r3 /\
    rankBySortOrder options
      (overall_key (Z.of_nat (length options)) r1 r2 r3) = Normal r4 /\
    nullish_ordering (key_value (leastNumberOfNos_key card))
      (sortOrderToComparator (leastNumberOfNos_key card)) options r1 /\
    nullish_ordering (key_value (leastNumberOfNosMaybes_key card))
      (sortOrderToComparator (leastNumberOfNosMaybes_key card)) options r2 /\
    nullish_ordering (key_value (bestScore_key card))
      (sortOrderToComparator (bestScore_key card)) options r3 /\
    nullish_ordering
      (key_value (overall_key (Z.of_nat (length options)) r1 r2 r3))
      (sortOrderToComparator
         (overall_key (Z.of_nat (length options)) r1 r2 r3)) options r4 /\
    forall o, o ∈ options ->
      (forall r s, r ∈ responses -> s ∈ selectedOptions r ->
         optionId s <> id o) ->
      card !! id o = None /\
      leastNumberOfNos_key card o = Normal None /\
      leastNumberOfNosMaybes_key card o = Normal None /\
      bestScore_key card o = Normal None /\
      exists v, overall_key (Z.of_nat (length options)) r1 r2 r3 o
                = Normal (Some v).
Proof.
  destruct (labelResponses_pipeline options responses)
    as (card & r1 & r2 & r3 & r4 & r5 & Hpipe & _).
  destruct (pipeline_items _ _ _ _ _ _ _ _ Hpipe)
    as (Hi1 & Hi2 & Hi3 & Hi4 & Hi5).
  exists card, r1, r2, r3, r4.
  pose proof (pipe_card _ _ _ _ _ _ _ _ Hpipe) as Hcard.
  destruct Hpipe as [_ Hc Hr1 Hr2 Hr3 Hr4 _ _ _ _ _ _].
  assert (forall (f : SortOrder Option) r,
            (forall a, a ∈ options -> exists v, f a = Normal v) ->
            rankBySortOrder options f = Normal r ->
            nullish_ordering (key_value f) (sortOrderToComparator f) options r)
    as Hord.
  { intros f r Hf Hr.
    destruct (rankBySortOrder_nullish_ordering f options Hf) as (r' & Hr' & H).
    rewrite Hr in Hr'. by injection Hr' as <-. }
  split_and!; try done.
  - apply Hord; [|done]. intros; apply leastNumberOfNos_key_Normal.
  - apply Hord; [|done]. intros; apply leastNumberOfNosMaybes_key_Normal.
  - apply Hord; [|done]. intros; apply bestScore_key_Normal.
  - apply Hord; [|done]. intros o Ho.
    rewrite (overall_key_Normal options) by done. eauto.
  - intros o Ho Hno.
    assert (card !! id o = None) as Hnone.
    { rewrite Hcard. rewrite fold_tally_add_unknown; [apply lookup_empty|].
      intros s (r & Hr & Hs)%list_elem_of_In%in_flat_map.
      apply (Hno r s); by apply list_elem_of_In. }
    unfold leastNumberOfNos_key, leastNumberOfNosMaybes_key, bestScore_key.
    rewrite Hnone. split_and!; try done.
    rewrite (overall_key_Normal options) by done. eauto.
Qed.

(** Claim C3 as stated fails for the overall criterion: in the two-option
    scenario, option [B] is selected by nobody and has no tally entry, yet
    its overall ordering key is the number 9, not an absent key. *)
Lemma overall_key_present_without_tally :
  ~ (forall options responses card r1 r2 r3 o,
       responsePreferenceCardianlity (flat_map selectedOptions responses)
         = Normal card ->
       rankBySortOrder options (leastNumberOfNos_key card) = Normal r1 ->
       rankBySortOrder options (leastNumberOfNosMaybes_key card) = Normal r2 ->
       rankBySortOrder options (bestScore_key card) = Normal r3 ->
       o ∈ options ->
       (forall r s, r ∈ responses -> s ∈ selectedOptions r ->
          optionId s <> id o) ->
       leastNumberOfNos_key card o = Normal None /\
       leastNumberOfNosMaybes_key card o = Normal None /\
       bestScore_key card o = Normal None /\
       overall_key (Z.of_nat (length options)) r1 r2 r3 o = Normal None).
Proof.
  intros H.
  specialize (H scenario_options scenario_responses
                {["A" := {[4 := 1]}]}
                [mkRanked (mkOption "A" "2023-05-01") 0;
                 mkRanked (mkOption "B" "2023-05-02") 1]
                [mkRanked (mkOption "A" "2023-05-01") 0;
                 mkRanked (mkOption "B" "2023-05-02") 1]
                [mkRanked (mkOption "A" "2023-05-01") 0;
                 mkRanked (mkOption "B" "2023-05-02") 1]
                (mkOption "B" "2023-05-02")).
  destruct H as (_ & _ & _ & H).
  - vm_compute. reflexivity.
  - vm_compute. reflexivity.
  - vm_compute. reflexivity.
  - vm_compute. reflexivity.
  - right. left.
  - intros r s Hr Hs. unfold scenario_responses in Hr.
    apply list_elem_of_singleton in Hr as ->. simpl in Hs.
    apply list_elem_of_singleton in Hs as ->. done.
  - vm_compute in H. discriminate H.
Qed.

(** ** The overall aggregate and the order of its components *)

(** Claim C1 on the code.  The overall key is the sum over the positions
    i = 0, 1, 2 of [i * N + rank_i], that is [3 * N] plus the plain sum of
    the three ranks, so the position of a component carries no weight.  On
    [inversion_options] and [inversion_responses] option [A] has the
    strictly smaller fewest-nos rank (0 against 1), yet the larger
    aggregate (8 against 7) and the worse overall rank (1 against 0). *)
Theorem overall_aggregate_inversion :
  let A := mkOption "A" "2023-05-01" in
  let B := mkOption "B" "2023-05-02" in
  let card : Cardinality :=
    {["A" := {[0 := 2]}; "B" := {[-1 := 1; 4 := 1]}]} in
  let r1 := [mkRanked A 0; mkRanked B 1] in
  let r2 := [mkRanked B 0; mkRanked A 1] in
  let r3 := [mkRanked B 0; mkRanked A 1] in
  responsePreferenceCardianlity (flat_map selectedOptions inversion_responses)
    = Normal card /\
  rankBySortOrder inversion_options (leastNumberOfNos_key card) = Normal r1 /\
  rankBySortOrder inversion_options (leastNumberOfNosMaybes_key card)
    = Normal r2 /\
  rankBySortOrder inversion_options (bestScore_key card) = Normal r3 /\
  rank_of r1 "A" < rank_of r1 "B" /\
  overall_key 2 r1 r2 r3 A = Normal (Some 8) /\
  overall_key 2 r1 r2 r3 B = Normal (Some 7) /\
  labelResponses inversion_options inversion_responses
    = Normal (Map_of_entries
                [("A", mkRankLabels 0 1 1 1 0);
                 ("B", mkRankLabels 1 0 0 0 0)]).
Proof. split_and!; vm_compute; reflexivity. Qed.

(** ** Dominance ranks *)

(** Claim C6 on the code.  In [dominance_options], with the responses
    [dominance_responses], the options are already in an order in which
    each one compares at most equal to the next under the dominance
    comparator, and the sort returns them in that order.
    Option [D] is given dominance rank 1 and the label Suboptimal although
    no option dominates it; [A], whose three component ranks are those of
    [D], is given dominance rank 0. *)
Theorem strictlySuperiorRank_positive_undominated :
  let A := mkOption "A" "2023-05-01" in
  let B := mkOption "B" "2023-05-02" in
  let C := mkOption "C" "2023-05-03" in
  let D := mkOption "D" "2023-05-04" in
  let E := mkOption "E" "2023-05-05" in
  let card : Cardinality :=
    {["A" := {[-1 := 1; 1 := 1; 2 := 1]}; "B" := {[0 := 2; 4 := 1]};
      "C" := {[0 := 2; 3 := 1]}; "D" := {[-1 := 1; 3 := 1]};
      "E" := {[1 := 1]}]} in
  let r1 := [mkRanked B 0; mkRanked C 0; mkRanked E 0; mkRanked A 1;
             mkRanked D 1] in
  let r2 := [mkRanked E 0; mkRanked A 1; mkRanked D 1; mkRanked B 2;
             mkRanked C 2] in
  let r3 := [mkRanked B 0; mkRanked C 1; mkRanked A 2; mkRanked D 2;
             mkRanked E 3] in
  responsePreferenceCardianlity (flat_map selectedOptions dominance_responses)
    = Normal card /\
  rankBySortOrder dominance_options (leastNumberOfNos_key card) = Normal r1 /\
  rankBySortOrder dominance_options (leastNumberOfNosMaybes_key card)
    = Normal r2 /\
  rankBySortOrder dominance_options (bestScore_key card) = Normal r3 /\
  Array_sort (strictlySuperior_cmp r1 r2 r3) dominance_options
    = Normal dominance_options /\
  rankByComparator dominance_options (strictlySuperior_cmp r1 r2 r3)
    = Normal [mkRanked A 0; mkRanked B 0; mkRanked C 1; mkRanked D 1;
              mkRanked E 1] /\
  labelResponses dominance_options dominance_responses
    = Normal dominance_labels /\
  dominance_labels !! "D" = Some (mkRankLabels 1 1 2 2 1) /\
  dominance_labels !! "A" = Some (mkRankLabels 1 1 2 2 0) /\
  label_of dominance_options dominance_labels "D" = Some Suboptimal /\
  forall o rl, o ∈ dominance_options -> dominance_labels !! id o = Some rl ->
    ~ dominates rl (mkRankLabels 1 1 2 2 1).
Proof.
  split_and!; try (vm_compute; reflexivity).
  intros o rl Ho Hrl. unfold dominance_options in Ho.
  repeat (apply elem_of_cons in Ho as [->|Ho]);
    try (vm_compute in Hrl; injection Hrl as <-; unfold dominates; simpl; lia).
  by apply elem_of_nil in Ho.
Qed.

(** * Further properties of the engine *)

(** ** What the tally counts *)

Lemma votes_nil k p : votes [] k p = 0.
Proof. done. Qed.

Lemma votes_snoc l s k p :
  votes (l ++ [s]) k p =
  votes l k p + (if bool_decide (optionId s = k /\ preference s = p)
                 then 1 else 0).
Proof.
  unfold votes. rewrite List.filter_app, length_app. simpl.
  destruct (bool_decide (optionId s = k)) eqn:Hk,
           (bool_decide (preference s = p)) eqn:Hp; simpl;
    [rewrite bool_decide_eq_true_2; [lia|]
    |rewrite bool_decide_eq_false_2; [lia|]..].
  - by apply bool_decide_eq_true in Hk, Hp.
  - apply bool_decide_eq_false in Hp. tauto.
  - apply bool_decide_eq_false in Hk. tauto.
  - apply bool_decide_eq_false in Hk. tauto.
Qed.

Lemma votes_nonneg l k p : 0 <= votes l k p.
Proof. unfold votes. lia. Qed.

Lemma votes_unknown l k p :
  Forall (fun s => optionId s <> k) l -> votes l k p = 0.
Proof.
  induction 1 as [|s l Hs _ IH]; [done|].
  unfold votes in *. simpl. by rewrite bool_decide_eq_false_2.
Qed.

Lemma preference_sum_snoc l s k :
  preference_sum (l ++ [s]) k =
  preference_sum l k + (if bool_decide (optionId s = k)
                        then preference s else 0).
Proof.
  unfold preference_sum. rewrite List.filter_app, map_app, foldr_app. simpl.
  generalize (map preference
                (List.filter (fun s0 => bool_decide (optionId s0 = k)) l)).
  intros zs. destruct (bool_decide (optionId s = k)); simpl.
  - induction zs as [|z zs IH]; simpl; lia.
  - lia.
Qed.

Lemma preference_sum_unknown l k :
  Forall (fun s => optionId s <> k) l -> preference_sum l k = 0.
Proof.
  induction 1 as [|s l Hs _ IH]; [done|].
  unfold preference_sum in *. simpl. by rewrite bool_decide_eq_false_2.
Qed.

Lemma score_fold_comm (j1 j2 z1 z2 y : Z) :
  y + j2 * z2 + j1 * z1 = y + j1 * z1 + j2 * z2.
Proof. lia. Qed.

Lemma score_fold_vote (t : Tally) (p : Z) :
  map_fold (fun key value acc => acc + key * value) 0
    (<[p := default 0 (t !! p) + 1]> t)
  = map_fold (fun key value acc => acc + key * value) 0 t + p.
Proof.
  destruct (t !! p) as [c|] eqn:Hp; simpl.
  - rewrite <- insert_delete_eq.
    rewrite map_fold_insert_L;
      [|intros; apply score_fold_comm|apply lookup_delete_eq].
    rewrite (map_fold_delete_L _ _ p c t);
      [|intros; apply score_fold_comm|done].
    lia.
  - rewrite map_fold_insert_L; [lia|intros; apply score_fold_comm|done].
Qed.

Lemma tally_counts_fold l : tally_counts l (fold_left tally_add l ∅).
Proof.
  induction l as [|s l IH] using rev_ind.
  { intros k. simpl. rewrite lookup_empty. split; [done|]. by intros t. }
  rewrite fold_left_app. simpl. set (m := fold_left tally_add l ∅) in *.
  intros k. destruct (IH k) as [Hnone Hsome].
  destruct (decide (optionId s = k)) as [Hk|Hk].
  - (* the selection counts for [k] *)
    set (pref := default ∅ (m !! k)).
    assert ((forall p, pref !! p = if votes l k p =? 0 then None
                                   else Some (votes l k p)) /\
            map_fold (fun key value acc => acc + key * value) 0 pref
            = preference_sum l k) as [Hpref Hsum].
    { unfold pref. destruct (m !! k) as [t|] eqn:Hm; simpl.
      - by apply Hsome.
      - assert (Forall (fun s => optionId s <> k) l) as Hl by by apply Hnone.
        split.
        + intros p. by rewrite votes_unknown, lookup_empty.
        + by rewrite preference_sum_unknown, map_fold_empty. }
    assert (tally_add m s !! k
            = Some (<[preference s := default 0 (pref !! preference s) + 1]>
                      pref)) as Hnew.
    { unfold tally_add. rewrite Hk. by rewrite lookup_insert_eq. }
    rewrite Hnew. split.
    + split; [done|]. intros Hall.
      rewrite Forall_app, Forall_singleton in Hall. tauto.
    + intros t [= <-]. split.
      * intros p. rewrite votes_snoc. pose proof (votes_nonneg l k p).
        destruct (decide (preference s = p)) as [<-|Hp].
        -- rewrite lookup_insert_eq, Hpref.
           rewrite bool_decide_eq_true_2 by done.
           destruct (votes l k (preference s) =? 0) eqn:Hv; simpl.
           ++ apply Z.eqb_eq in Hv. rewrite Hv. done.
           ++ rewrite (proj2 (Z.eqb_neq _ _)) by lia. done.
        -- rewrite lookup_insert_ne by done.
           rewrite bool_decide_eq_false_2 by tauto.
           rewrite Z.add_0_r. apply Hpref.
      * rewrite score_fold_vote, Hsum, preference_sum_snoc.
        by rewrite bool_decide_eq_true_2.
  - rewrite tally_add_lookup_ne by done. split.
    + rewrite Hnone. rewrite Forall_app, Forall_singleton. tauto.
    + intros t Ht. destruct (Hsome t Ht) as [Hv Hs]. split.
      * intros p. rewrite votes_snoc.
        rewrite bool_decide_eq_false_2 by tauto. rewrite Z.add_0_r. apply Hv.
      * rewrite preference_sum_snoc.
        rewrite bool_decide_eq_false_2 by done. by rewrite Z.add_0_r.
Qed.

(** For every list of Selected Options the tally has an entry for an
    option id exactly when some selection refers to it; the entry maps a
    preference value to the number of selections of that option with that
    value, and has no entry for a value nobody chose. *)
Theorem responsePreferenceCardianlity_counts l :
  exists card,
    responsePreferenceCardianlity l = Normal card /\
    forall k,
      (card !! k = None <-> Forall (fun s => optionId s <> k) l) /\
      forall t, card !! k = Some t ->
        forall p, t !! p = if votes l k p =? 0 then None
                           else Some (votes l k p).
Proof.
  eexists. split; [apply responsePreferenceCardianlity_Normal|].
  intros k. destruct (tally_counts_fold l k) as [Hnone Hsome].
  split; [done|]. intros t Ht. by apply Hsome.
Qed.

(** For every list of Selected Options and every option some selection
    refers to, the fewest-nos key is the number of its "no" votes
    (preference -1), the fewest-nos-and-maybes key the number of its "no"
    and "maybe" votes (preferences -1 and 0), and the best-score key minus
    the sum of the preferences of all its votes; an option no selection
    refers to has none of the three keys. *)
Theorem ordering_keys_count_votes l (o : Option) :
  exists card,
    responsePreferenceCardianlity l = Normal card /\
    (Forall (fun s => optionId s <> id o) l ->
       leastNumberOfNos_key card o = Normal None /\
       leastNumberOfNosMaybes_key card o = Normal None /\
       bestScore_key card o = Normal None) /\
    (Exists (fun s => optionId s = id o) l ->
       leastNumberOfNos_key card o = Normal (Some (votes l (id o) (-1))) /\
       leastNumberOfNosMaybes_key card o
       = Normal (Some (votes l (id o) (-1) + votes l (id o) 0)) /\
       bestScore_key card o = Normal (Some (- preference_sum l (id o)))).
Proof.
  eexists. split; [apply responsePreferenceCardianlity_Normal|].
  destruct (tally_counts_fold l (id o)) as [Hnone Hsome].
  unfold leastNumberOfNos_key, leastNumberOfNosMaybes_key, bestScore_key.
  split.
  - intros Hall. apply Hnone in Hall. by rewrite Hall.
  - intros Hex.
    destruct (fold_left tally_add l ∅ !! id o) as [t|] eqn:Ht.
    + destruct (Hsome t eq_refl) as [Hv Hs].
      assert (forall p, default 0 (t !! p) = votes l (id o) p) as Hd.
      { intros p. rewrite Hv. destruct (votes l (id o) p =? 0) eqn:H0; [|done].
        apply Z.eqb_eq in H0. by rewrite H0. }
      by rewrite !Hd, Hs.
    + apply Exists_exists in Hex as (s & Hin & Hs).
      assert (Forall (fun s => optionId s <> id o) l) as Hall by by apply Hnone.
      rewrite Forall_forall in Hall. by destruct (Hall s Hin).
Qed.

(** ** The order of the responses *)

Lemma votes_Permutation l l' k p : l ≡ₚ l' -> votes l k p = votes l' k p.
Proof.
  intros H. unfold votes. f_equal.
  induction H as [|s l l' _ IH|s s' l|l l' l'' _ IH _ IH']; simpl.
  - done.
  - destruct (_ && _); simpl; by rewrite IH.
  - by destruct (_ && _), (_ && _).
  - by rewrite IH.
Qed.

Lemma tally_Permutation l l' :
  l ≡ₚ l' -> fold_left tally_add l ∅ = fold_left tally_add l' ∅.
Proof.
  intros H. apply map_eq. intros k.
  destruct (tally_counts_fold l k) as [Hnone Hsome].
  destruct (tally_counts_fold l' k) as [Hnone' Hsome'].
  destruct (fold_left tally_add l ∅ !! k) as [t|] eqn:Ht,
           (fold_left tally_add l' ∅ !! k) as [t'|] eqn:Ht'.
  - f_equal. apply map_eq. intros p.
    rewrite (proj1 (Hsome t eq_refl)), (proj1 (Hsome' t' eq_refl)).
    by rewrite (votes_Permutation l l').
  - assert (Forall (fun s => optionId s <> k) l') as Hall by by apply Hnone'.
    rewrite <- H in Hall. by apply Hnone in Hall.
  - assert (Forall (fun s => optionId s <> k) l) as Hall by by apply Hnone.
    rewrite H in Hall. by apply Hnone' in Hall.
  - done.
Qed.

(** The ranking computation returns the same result for two response lists
    whose Selected Options, taken together, are rearrangements of each
    other: neither the order of the responses, nor the order of the
    selections inside a response, nor the response a selection belongs to
    have an influence. *)
Theorem labelResponses_selection_order options responses responses' :
  flat_map selectedOptions responses ≡ₚ flat_map selectedOptions responses' ->
  labelResponses options responses = labelResponses options responses'.
Proof.
  intros H. apply labelResponses_tally_agree. intros o _.
  by rewrite (tally_Permutation _ _ H).
Qed.

Lemma labelResponses_selection_order_witness :
  labelResponses scenario_options
    [mkResponse (mkRespondent (Some "Ada"))
       [mkSelectedOption 4 false "A"; mkSelectedOption 0 true "B"]]
  = labelResponses scenario_options
      [mkResponse (mkRespondent (Some "Bob")) [mkSelectedOption 0 true "B"];
       mkResponse (mkRespondent (Some "Ada")) [mkSelectedOption 4 false "A"]].
Proof.
  apply (labelResponses_selection_order scenario_options).
  simpl. apply Permutation_swap.
Defined.

(** ** Ranks against keys *)

Lemma spec_ranks_from_tie {T : Type} (k : T -> option Z) prev n l e :
  StronglySorted (fun a b => nullish_compare k a b <= 0) (prev :: l) ->
  e ∈ spec_ranks_from (nullish_compare k) prev n l ->
  (rank e = n <-> nullish_compare k (item e) prev = 0).
Proof.
  revert prev n. induction l as [|x l IH]; simpl; intros prev n Hs He.
  - by apply elem_of_nil in He.
  - apply StronglySorted_inv in Hs as [Hs Hprev].
    rewrite Forall_forall in Hprev.
    pose proof (Hprev x ltac:(left)) as Hpx.
    apply elem_of_cons in He as [->|He]; simpl.
    + destruct (nullish_compare k x prev =? 0) eqn:Hx; lia.
    + pose proof (IH _ _ Hs He) as Htie.
      pose proof (spec_ranks_from_bounds _ _ _ _ _ He) as Hb.
      assert (item e ∈ l) as Hin.
      { rewrite <- (spec_ranks_from_items (nullish_compare k) x
                      (if nullish_compare k x prev =? 0 then n else n + 1) l).
        by apply list_elem_of_fmap_2. }
      pose proof (Hprev (item e) ltac:(by right)) as Hpe.
      apply StronglySorted_inv in Hs as [_ Hx].
      rewrite Forall_forall in Hx. pose proof (Hx _ Hin) as Hxe.
      revert Htie Hb Hpx Hpe Hxe. unfold nullish_compare.
      destruct (k x), (k prev), (k (item e));
        repeat match goal with |- context [?a =? 0] =>
          destruct (Z.eqb_spec a 0) end; lia.
Qed.

Lemma spec_ranks_from_pairs {T : Type} (k : T -> option Z) prev n l
  (i j : nat) p q :
  StronglySorted (fun a b => nullish_compare k a b <= 0) (prev :: l) ->
  (i < j)%nat ->
  (mkRanked prev n :: spec_ranks_from (nullish_compare k) prev n l) !! i
  = Some p ->
  (mkRanked prev n :: spec_ranks_from (nullish_compare k) prev n l) !! j
  = Some q ->
  (rank p = rank q <-> nullish_compare k (item p) (item q) = 0).
Proof.
  revert prev n i j. induction l as [|x l IH]; intros prev n i j Hs Hij Hp Hq.
  - destruct i, j; simpl in *; try done; lia.
  - destruct j as [|j]; [lia|].
    change ((spec_ranks_from (nullish_compare k) prev n (x :: l)) !! j = Some q)
      in Hq.
    destruct i as [|i].
    + simpl in Hp. injection Hp as <-. simpl item. simpl rank.
      apply list_elem_of_lookup_2 in Hq.
      pose proof (spec_ranks_from_tie k prev n (x :: l) q Hs Hq) as Htie.
      revert Htie. unfold nullish_compare.
      destruct (k prev), (k (item q)); lia.
    + change ((spec_ranks_from (nullish_compare k) prev n (x :: l)) !! i = Some p)
        in Hp.
      simpl spec_ranks_from in Hp, Hq.
      apply StronglySorted_inv in Hs as [Hs _].
      eapply (IH _ _ i j); [done|lia|exact Hp|exact Hq].
Qed.

Lemma spec_ranks_order {T : Type} (k : T -> option Z) s p q :
  StronglySorted (fun a b => nullish_compare k a b <= 0) s ->
  p ∈ spec_ranks (nullish_compare k) s ->
  q ∈ spec_ranks (nullish_compare k) s ->
  (rank p < rank q <-> nullish_compare k (item p) (item q) < 0) /\
  (rank p = rank q <-> nullish_compare k (item p) (item q) = 0).
Proof.
  intros Hs Hp Hq.
  assert (forall (i j : nat) a b, (i < j)%nat ->
            spec_ranks (nullish_compare k) s !! i = Some a ->
            spec_ranks (nullish_compare k) s !! j = Some b ->
            rank a <= rank b /\ nullish_compare k (item a) (item b) <= 0 /\
            (rank a = rank b <-> nullish_compare k (item a) (item b) = 0))
    as Hpair.
  { intros i j a b Hij Ha Hb. split_and!.
    - destruct s as [|x s]; [done|].
      apply (spec_ranks_from_mono (nullish_compare k) x 0 s i j); [lia|done..].
    - apply (StronglySorted_lookup
               (fun a b => nullish_compare k a b <= 0) s i j); [done..| |].
      + rewrite <- (spec_ranks_items (nullish_compare k) s).
        rewrite list_lookup_fmap. by rewrite Ha.
      + rewrite <- (spec_ranks_items (nullish_compare k) s).
        rewrite list_lookup_fmap. by rewrite Hb.
    - destruct s as [|x s]; [done|].
      by apply (spec_ranks_from_pairs k x 0 s i j). }
  apply list_elem_of_lookup in Hp as [i Hi].
  apply list_elem_of_lookup in Hq as [j Hj].
  destruct (Nat.lt_total i j) as [Hij|[->|Hji]].
  - destruct (Hpair i j p q Hij Hi Hj) as (? & ? & ?). lia.
  - rewrite Hi in Hj. injection Hj as <-.
    unfold nullish_compare. destruct (k (item p)); lia.
  - destruct (Hpair j i q p Hji Hj Hi) as (H1 & H2 & H3).
    revert H2 H3. unfold nullish_compare.
    destruct (k (item p)), (k (item q)); lia.
Qed.

(** For a key function that returns normally, the ranks of the ranked list
    order the items exactly as their keys do, an absent key counting as
    larger than every present one: an item has a smaller rank than another
    one exactly when its key is smaller, and the same rank exactly when
    the two keys are equal or both absent. *)
Theorem rankBySortOrder_order_of_keys (T : Type) (arr : list T)
  (f : SortOrder T) (k : T -> option Z) :
  (forall a, a ∈ arr -> f a = Normal (k a)) ->
  exists r,
    rankBySortOrder arr f = Normal r /\
    forall p q, p ∈ r -> q ∈ r ->
      (rank p < rank q <-> nullish_compare k (item p) (item q) < 0) /\
      (rank p = rank q <-> nullish_compare k (item p) (item q) = 0).
Proof.
  intros Hf.
  destruct (rankBySortOrder_sorted f arr) as (s & Hp & Hs & Hr).
  { intros a Ha. rewrite (Hf a Ha). eauto. }
  eexists. split; [exact Hr|]. intros p q Hpin Hqin.
  assert (forall e, e ∈ spec_ranks (nullish_compare (key_value f)) s ->
            key_value f (item e) = k (item e)) as Hk.
  { intros e He. unfold key_value. rewrite Hf; [done|].
    rewrite <- Hp, <- (spec_ranks_items (nullish_compare (key_value f)) s).
    by apply list_elem_of_fmap_2. }
  pose proof (spec_ranks_order (key_value f) s p q Hs Hpin Hqin) as Ho.
  unfold nullish_compare in *. by rewrite !Hk in Ho.
Qed.

Lemma rankBySortOrder_order_of_keys_witness :
  exists r,
    rankBySortOrder [3; 1; 3] (fun a => Normal (Some a)) = Normal r /\
    forall p q, p ∈ r -> q ∈ r ->
      (rank p < rank q <-> nullish_compare Some (item p) (item q) < 0) /\
      (rank p = rank q <-> nullish_compare Some (item p) (item q) = 0).
Proof.
  apply (rankBySortOrder_order_of_keys Z [3; 1; 3]
           (fun a => Normal (Some a)) Some).
  by intros a _.
Defined.

Lemma rank_of_order options (k : Option -> option Z) r A B :
  sorted_ranking options (nullish_compare k) r ->
  (forall a b, id a = id b -> k a = k b) ->
  A ∈ options -> B ∈ options ->
  (rank_of r (id A) < rank_of r (id B) <-> nullish_compare k A B < 0) /\
  (rank_of r (id A) = rank_of r (id B) <-> nullish_compare k A B = 0).
Proof.
  intros Hr Hid HA HB.
  pose proof (sorted_ranking_items _ _ _ Hr) as Hi.
  destruct Hr as (s & Hp & Hs & ->).
  destruct (find_by_id_is_Some _ _ _ Hi HA) as [ea Hea].
  destruct (find_by_id_is_Some _ _ _ Hi HB) as [eb Heb].
  unfold rank_of. rewrite Hea, Heb.
  apply find_by_id_Some in Hea as [Hida Hea].
  apply find_by_id_Some in Heb as [Hidb Heb].
  pose proof (spec_ranks_order k s ea eb Hs Hea Heb) as Ho.
  unfold nullish_compare in *.
  by rewrite (Hid _ _ Hida), (Hid _ _ Hidb) in Ho.
Qed.

(** For every input and every two listed options, each of the three
    tally-based ranks compares as the keys of its criterion do (an absent
    key counting as largest): smaller key, smaller rank; equal or both
    absent keys, equal rank.  The overall rank compares as the sum of the
    three ranks does. *)
Theorem labelResponses_ranks_follow_keys options responses :
  exists card labels,
    responsePreferenceCardianlity (flat_map selectedOptions responses)
      = Normal card /\
    labelResponses options responses = Normal labels /\
    forall A B ra rb,
      A ∈ options -> B ∈ options ->
      labels !! id A = Some ra -> labels !! id B = Some rb ->
      let nos := nullish_compare (key_value (leastNumberOfNos_key card)) A B in
      let nosMaybes :=
        nullish_compare (key_value (leastNumberOfNosMaybes_key card)) A B in
      let score := nullish_compare (key_value (bestScore_key card)) A B in
      let sum rl :=
        leastNumberOfNosRank rl + leastNumberOfNosMaybesRank rl
        + bestScoreRank rl in
      (leastNumberOfNosRank ra < leastNumberOfNosRank rb <-> nos < 0) /\
      (leastNumberOfNosRank ra = leastNumberOfNosRank rb <-> nos = 0) /\
      (leastNumberOfNosMaybesRank ra < leastNumberOfNosMaybesRank rb
       <-> nosMaybes < 0) /\
      (leastNumberOfNosMaybesRank ra = leastNumberOfNosMaybesRank rb
       <-> nosMaybes = 0) /\
      (bestScoreRank ra < bestScoreRank rb <-> score < 0) /\
      (bestScoreRank ra = bestScoreRank rb <-> score = 0) /\
      (overallRank ra < overallRank rb <-> sum ra < sum rb) /\
      (overallRank ra = overallRank rb <-> sum ra = sum rb).
Proof.
  destruct (labelResponses_pipeline options responses)
    as (card & r1 & r2 & r3 & r4 & r5 & Hpipe & Hrun).
  destruct (pipeline_items _ _ _ _ _ _ _ _ Hpipe)
    as (Hi1 & Hi2 & Hi3 & Hi4 & Hi5).
  exists card. eexists. split; [apply Hpipe|]. split; [exact Hrun|].
  intros A B ra rb HA HB Hra Hrb.
  rewrite (labelResponses_lookup _ _ _ _ _ _ _ _ _ _ Hrun Hrun Hpipe HA) in Hra.
  rewrite (labelResponses_lookup _ _ _ _ _ _ _ _ _ _ Hrun Hrun Hpipe HB) in Hrb.
  injection Hra as <-. injection Hrb as <-. simpl.
  destruct (rank_of_order options _ r1 A B (pipe_nos _ _ _ _ _ _ _ _ Hpipe))
    as [Hn1 Hn2]; [|done..|].
  { intros a b Hab. unfold key_value, leastNumberOfNos_key. by rewrite Hab. }
  destruct (rank_of_order options _ r2 A B
              (pipe_nosMaybes _ _ _ _ _ _ _ _ Hpipe)) as [Hm1 Hm2]; [|done..|].
  { intros a b Hab. unfold key_value, leastNumberOfNosMaybes_key.
    by rewrite Hab. }
  destruct (rank_of_order options _ r3 A B
              (pipe_bestScore _ _ _ _ _ _ _ _ Hpipe)) as [Hs1 Hs2]; [|done..|].
  { intros a b Hab. unfold key_value, bestScore_key. by rewrite Hab. }
  destruct (rank_of_order options _ r4 A B
              (pipe_overall _ _ _ _ _ _ _ _ Hpipe)) as [Ho1 Ho2]; [|done..|].
  { intros a b Hab. unfold key_value, overall_key. by rewrite Hab. }
  assert (nullish_compare
            (key_value (overall_key (Z.of_nat (length options)) r1 r2 r3)) A B
          = (rank_of r3 (id A) + rank_of r2 (id A) + rank_of r1 (id A))
            - (rank_of r3 (id B) + rank_of r2 (id B) + rank_of r1 (id B)))
    as Hov.
  { unfold nullish_compare, key_value.
    rewrite !(overall_key_Normal options) by done. lia. }
  rewrite Hov in Ho1, Ho2.
  split_and!; try done; lia.
Qed.

(** ** The dominance comparator *)

(** For every input and every two listed options, the comparator of the
    dominance criterion returns -1 exactly when the first option dominates
    the second (no worse in the three component ranks, better in one), 1
    exactly when the second dominates the first, and 0 otherwise, that is
    for equal and for incomparable rank triples; exchanging the arguments
    negates the result. *)
Theorem strictlySuperior_cmp_dominates options responses :
  exists card r1 r2 r3 labels,
    responsePreferenceCardianlity (flat_map selectedOptions responses)
      = Normal card /\
    rankBySortOrder options (leastNumberOfNos_key card) = Normal r1 /\
    rankBySortOrder options (leastNumberOfNosMaybes_key card) = Normal r2 /\
    rankBySortOrder options (bestScore_key card) = Normal r3 /\
    labelResponses options responses = Normal labels /\
    forall A B ra rb,
      A ∈ options -> B ∈ options ->
      labels !! id A = Some ra -> labels !! id B = Some rb ->
      exists c,
        strictlySuperior_cmp r1 r2 r3 A B = Normal c /\
        strictlySuperior_cmp r1 r2 r3 B A = Normal (- c) /\
        (c = -1 <-> dominates ra rb) /\
        (c = 1 <-> dominates rb ra) /\
        (c = 0 <-> ~ dominates ra rb /\ ~ dominates rb ra).
Proof.
  destruct (labelResponses_pipeline options responses)
    as (card & r1 & r2 & r3 & r4 & r5 & Hpipe & Hrun).
  destruct (pipeline_items _ _ _ _ _ _ _ _ Hpipe)
    as (Hi1 & Hi2 & Hi3 & Hi4 & Hi5).
  exists card, r1, r2, r3. eexists.
  split_and!; [apply Hpipe..|exact Hrun|].
  intros A B ra rb HA HB Hra Hrb.
  rewrite (labelResponses_lookup _ _ _ _ _ _ _ _ _ _ Hrun Hrun Hpipe HA) in Hra.
  rewrite (labelResponses_lookup _ _ _ _ _ _ _ _ _ _ Hrun Hrun Hpipe HB) in Hrb.
  injection Hra as <-. injection Hrb as <-.
  rewrite !(strictlySuperior_cmp_Normal options) by done.
  unfold dominates, labels_at. simpl.
  generalize (rank_of r1 (id A)) (rank_of r1 (id B)) (rank_of r2 (id A))
    (rank_of r2 (id B)) (rank_of r3 (id A)) (rank_of r3 (id B)).
  intros a1 b1 a2 b2 a3 b3. rewrite !Z.geb_leb.
  eexists. split; [reflexivity|].
  destruct (Z.lt_trichotomy a1 b1) as [H1|[H1|H1]],
           (Z.lt_trichotomy a2 b2) as [H2|[H2|H2]],
           (Z.lt_trichotomy a3 b3) as [H3|[H3|H3]];
    repeat first
      [rewrite (proj2 (Z.eqb_eq _ _)) by lia
      |rewrite (proj2 (Z.eqb_neq _ _)) by lia
      |rewrite (proj2 (Z.leb_le _ _)) by lia
      |rewrite (proj2 (Z.leb_gt _ _)) by lia];
    simpl; split_and!; try done; lia.
Qed.

(** ** Rank 0 and Best Overall *)

Lemma rank_of_nonneg options cmp r x : ranking options cmp r -> 0 <= rank_of r x.
Proof.
  intros (s & _ & ->). unfold rank_of.
  destruct (find_by_id _ x) as [e|] eqn:He; [|done].
  apply find_by_id_Some in He as [_ He].
  destruct s as [|y s]; simpl in He; [by apply elem_of_nil in He|].
  apply elem_of_cons in He as [->|He]; [done|].
  apply spec_ranks_from_bounds in He. lia.
Qed.

Lemma rank_of_first options cmp r :
  ranking options cmp r -> options <> [] ->
  exists o, o ∈ options /\ rank_of r (id o) = 0.
Proof.
  intros (s & Hp & ->) Hne. destruct s as [|x s].
  { apply Permutation_nil_l in Hp. by subst. }
  exists x. split; [rewrite <- Hp; left|].
  unfold rank_of, find_by_id. simpl. by rewrite bool_decide_eq_true_2.
Qed.

Lemma determineMostSignificantLabel_BestOverall rl numberOfOptions :
  determineMostSignificantLabel rl numberOfOptions = BestOverall <->
  overallRank rl = 0.
Proof.
  unfold determineMostSignificantLabel.
  destruct (Z.eqb_spec (overallRank rl) 0) as [H0|H0]; [done|].
  split; [|done].
  repeat match goal with |- context [if ?c then _ else _] =>
    destruct c end; done.
Qed.

Lemma overall_rank_order options responses card r1 r2 r3 r4 r5 A B :
  pipeline options responses card r1 r2 r3 r4 r5 ->
  A ∈ options -> B ∈ options ->
  let sum x := rank_of r1 x + rank_of r2 x + rank_of r3 x in
  (rank_of r4 (id A) < rank_of r4 (id B) <-> sum (id A) < sum (id B)) /\
  (rank_of r4 (id A) = rank_of r4 (id B) <-> sum (id A) = sum (id B)).
Proof.
  intros Hpipe HA HB.
  destruct (pipeline_items _ _ _ _ _ _ _ _ Hpipe)
    as (Hi1 & Hi2 & Hi3 & Hi4 & Hi5).
  destruct (rank_of_order options _ r4 A B
              (pipe_overall _ _ _ _ _ _ _ _ Hpipe)) as [Ho1 Ho2]; [|done..|].
  { intros a b Hab. unfold key_value, overall_key. by rewrite Hab. }
  assert (nullish_compare
            (key_value (overall_key (Z.of_nat (length options)) r1 r2 r3)) A B
          = (rank_of r3 (id A) + rank_of r2 (id A) + rank_of r1 (id A))
            - (rank_of r3 (id B) + rank_of r2 (id B) + rank_of r1 (id B)))
    as Hov.
  { unfold nullish_compare, key_value.
    rewrite !(overall_key_Normal options) by done. lia. }
  rewrite Hov in Ho1, Ho2. simpl. lia.
Qed.

(** For every input, a listed option is labelled Best Overall exactly when
    the sum of its fewest-nos, fewest-nos-and-maybes and best-score ranks
    is the least among the listed options. *)
Theorem BestOverall_iff_least_rank_sum options responses :
  exists labels,
    labelResponses options responses = Normal labels /\
    forall B rb, B ∈ options -> labels !! id B = Some rb ->
      let sum rl :=
        leastNumberOfNosRank rl + leastNumberOfNosMaybesRank rl
        + bestScoreRank rl in
      (label_of options labels (id B) = Some BestOverall <->
       forall A ra, A ∈ options -> labels !! id A = Some ra ->
         sum rb <= sum ra).
Proof.
  destruct (labelResponses_pipeline options responses)
    as (card & r1 & r2 & r3 & r4 & r5 & Hpipe & Hrun).
  eexists. split; [exact Hrun|]. intros B rb HB Hrb.
  assert (forall o, o ∈ options ->
            Map_of_entries
              (map (fun x => (x, labels_at r1 r2 r3 r4 r5 x)) (map id options))
            !! id o = Some (labels_at r1 r2 r3 r4 r5 (id o))) as Hlook.
  { intros o Ho.
    exact (labelResponses_lookup _ _ _ _ _ _ _ _ _ o Hrun Hrun Hpipe Ho). }
  unfold label_of. rewrite Hrb. simpl.
  rewrite (Hlook B HB) in Hrb. injection Hrb as <-.
  assert (forall l : Label, Some l = Some BestOverall <-> l = BestOverall)
    as -> by (intros; split; congruence).
  rewrite determineMostSignificantLabel_BestOverall. simpl.
  assert (forall x, 0 <= rank_of r4 x) as Hnn.
  { intros x. eapply rank_of_nonneg, sorted_ranking_ranking, Hpipe. }
  split.
  - intros H0 A ra HA Hra. rewrite (Hlook A HA) in Hra. injection Hra as <-.
    simpl.
    pose proof (overall_rank_order _ _ _ _ _ _ _ _ A B Hpipe HA HB) as [Hlt _].
    simpl in Hlt. pose proof (Hnn (id A)). lia.
  - intros Hleast.
    destruct (rank_of_first options _ r4
                (sorted_ranking_ranking _ _ _
                   (pipe_overall _ _ _ _ _ _ _ _ Hpipe)))
      as (o & Ho & Hzero).
    { intros ->. by apply elem_of_nil in HB. }
    pose proof (Hleast o _ Ho (Hlook o Ho)) as Hle. simpl in Hle.
    pose proof (overall_rank_order _ _ _ _ _ _ _ _ o B Hpipe Ho HB) as [Hlt _].
    simpl in Hlt. pose proof (Hnn (id B)). lia.
Qed.

(** For every non-empty option list some option is labelled Best Overall,
    and each of the five criteria gives rank 0 to some option. *)
Theorem some_option_is_BestOverall options responses :
  options <> [] ->
  exists labels,
    labelResponses options responses = Normal labels /\
    (exists o, o ∈ options /\
       label_of options labels (id o) = Some BestOverall) /\
    forall criterion,
      criterion ∈ [leastNumberOfNosRank; leastNumberOfNosMaybesRank;
                   bestScoreRank; overallRank; strictlySuperiorRank] ->
      exists o rl, o ∈ options /\ labels !! id o = Some rl /\
                   criterion rl = 0.
Proof.
  intros Hne.
  destruct (labelResponses_pipeline options responses)
    as (card & r1 & r2 & r3 & r4 & r5 & Hpipe & Hrun).
  eexists. split; [exact Hrun|].
  assert (forall o, o ∈ options ->
            Map_of_entries
              (map (fun x => (x, labels_at r1 r2 r3 r4 r5 x)) (map id options))
            !! id o = Some (labels_at r1 r2 r3 r4 r5 (id o))) as Hlook.
  { intros o Ho.
    exact (labelResponses_lookup _ _ _ _ _ _ _ _ _ o Hrun Hrun Hpipe Ho). }
  assert (exists o, o ∈ options /\ rank_of r1 (id o) = 0) as (o1 & Ho1 & Hz1)
    by (eapply rank_of_first; [eapply sorted_ranking_ranking, Hpipe|done]).
  assert (exists o, o ∈ options /\ rank_of r2 (id o) = 0) as (o2 & Ho2 & Hz2)
    by (eapply rank_of_first; [eapply sorted_ranking_ranking, Hpipe|done]).
  assert (exists o, o ∈ options /\ rank_of r3 (id o) = 0) as (o3 & Ho3 & Hz3)
    by (eapply rank_of_first; [eapply sorted_ranking_ranking, Hpipe|done]).
  assert (exists o, o ∈ options /\ rank_of r4 (id o) = 0) as (o4 & Ho4 & Hz4)
    by (eapply rank_of_first; [eapply sorted_ranking_ranking, Hpipe|done]).
  assert (exists o, o ∈ options /\ rank_of r5 (id o) = 0) as (o5 & Ho5 & Hz5)
    by (eapply rank_of_first; [apply Hpipe|done]).
  split.
  - exists o4. split; [done|]. unfold label_of. rewrite (Hlook o4 Ho4). simpl.
    f_equal. by apply determineMostSignificantLabel_BestOverall.
  - intros criterion Hc.
    repeat (apply elem_of_cons in Hc as [->|Hc]);
      [exists o1|exists o2|exists o3|exists o4|exists o5
      |by apply elem_of_nil in Hc];
      (eexists; split; [done|]; split; [by apply Hlook|done]).
Qed.

Lemma some_option_is_BestOverall_witness :
  exists labels,
    labelResponses scenario_options scenario_responses = Normal labels /\
    (exists o, o ∈ scenario_options /\
       label_of scenario_options labels (id o) = Some BestOverall) /\
    forall criterion,
      criterion ∈ [leastNumberOfNosRank; leastNumberOfNosMaybesRank;
                   bestScoreRank; overallRank; strictlySuperiorRank] ->
      exists o rl, o ∈ scenario_options /\ labels !! id o = Some rl /\
                   criterion rl = 0.
Proof.
  apply (some_option_is_BestOverall scenario_options scenario_responses).
  done.
Defined.

(** ** The returned map *)

(** For every input the returned map has an entry for an id exactly when
    the id is that of a listed option; for the empty option list it is the
    empty map. *)
Theorem labelResponses_entries options responses :
  exists labels,
    labelResponses options responses = Normal labels /\
    (forall x, is_Some (labels !! x) <-> x ∈ map id options) /\
    (options = [] -> labels = ∅).
Proof.
  destruct (labelResponses_pipeline options responses)
    as (card & r1 & r2 & r3 & r4 & r5 & _ & Hrun).
  eexists. split; [exact Hrun|].
  assert (forall x,
            is_Some (Map_of_entries
                       (map (fun x => (x, labels_at r1 r2 r3 r4 r5 x))
                          (map id options)) !! x)
            <-> x ∈ map id options) as Hdom.
  { intros x. rewrite Map_of_entries_lookup. case_decide as Hx.
    - split; [done|]. by eexists.
    - split; [by intros [? ?]|done]. }
  split; [done|]. intros ->. done.
Qed.

(** ** Dense ranks *)

Lemma spec_ranks_from_dense {T : Type} (cmp : T -> T -> Z) prev m l e n :
  e ∈ spec_ranks_from cmp prev m l -> m <= n <= rank e ->
  n = m \/ exists q, q ∈ spec_ranks_from cmp prev m l /\ rank q = n.
Proof.
  revert prev m. induction l as [|x l IH]; simpl; intros prev m He Hn.
  - by apply elem_of_nil in He.
  - set (r := if cmp x prev =? 0 then m else m + 1) in *.
    assert (m <= r <= m + 1) as Hr by (unfold r; destruct (_ =? 0); lia).
    destruct (decide (n = m)) as [->|Hnm]; [by left|]. right.
    destruct (decide (n = r)) as [->|Hnr].
    { eexists. split; [left|done]. }
    apply elem_of_cons in He as [->|He]; [simpl in Hn; lia|].
    destruct (IH x r He) as [->|(q & Hq & Hqn)]; [lia|done|].
    exists q. split; [by right|done].
Qed.

(** For every comparator that returns normally on the items, the ranks
    given out are consecutive from 0: whenever a rank is given to some
    item, every smaller rank down to 0 is given to some item too. *)
Theorem rankByComparator_dense (T : Type) (arr : list T)
  (fn : ComparatorFn T) (cmp : T -> T -> Z) :
  pure_on fn cmp arr ->
  exists r,
    rankByComparator arr fn = Normal r /\
    forall p n, p ∈ r -> 0 <= n <= rank p ->
      exists q, q ∈ r /\ rank q = n.
Proof.
  intros Hfn.
  destruct (rankByComparator_spec_ranks fn cmp arr Hfn) as (s & _ & Hr).
  eexists. split; [exact Hr|]. intros p n Hp Hn.
  destruct s as [|x s]; simpl in Hp; [by apply elem_of_nil in Hp|].
  destruct (decide (n = 0)) as [->|Hn0].
  { eexists. split; [left|done]. }
  apply elem_of_cons in Hp as [->|Hp]; [simpl in Hn; lia|].
  destruct (spec_ranks_from_dense cmp x 0 s p n Hp Hn) as [->|(q & Hq & Hqn)];
    [done|].
  exists q. split; [by right|done].
Qed.

Lemma rankByComparator_dense_witness :
  exists r,
    rankByComparator [3; 1; 3] (fun a b => Normal (a - b)) = Normal r /\
    forall p n, p ∈ r -> 0 <= n <= rank p ->
      exists q, q ∈ r /\ rank q = n.
Proof.
  apply (rankByComparator_dense Z [3; 1; 3] (fun a b => Normal (a - b))
           (fun a b => a - b)).
  by intros a b _ _.
Defined.

(** * The response form *)

(** ** Moving along the preference scale *)

Lemma find_preference_off_scale v :
  ~ (-1 <= v <= 4) -> find_preference v = None.
Proof.
  intros Hv. unfold find_preference, preferenceOptions. simpl.
  rewrite !bool_decide_eq_false_2 by lia. done.
Qed.

Lemma on_scale_cases v :
  -1 <= v <= 4 -> v = -1 \/ v = 0 \/ v = 1 \/ v = 2 \/ v = 3 \/ v = 4.
Proof. lia. Qed.

Lemma option_steps v :
  exists next previous,
    nextOptionFor v = Normal next /\
    previousOptionFor v = Normal previous /\
    next ∈ preferenceOptions /\ previous ∈ preferenceOptions /\
    value next = next_value v /\
    value previous = previous_value v.
Proof.
  destruct (decide (-1 <= v <= 4)) as [Hv|Hv].
  - apply on_scale_cases in Hv.
    destruct Hv as [-> | [-> | [-> | [-> | [-> | ->]]]]];
      (do 2 eexists; split_and!; [reflexivity|reflexivity| | |done|done]);
      vm_compute; repeat first [by left|right].
  - unfold nextOptionFor, previousOptionFor.
    rewrite find_preference_off_scale by done. simpl.
    do 2 eexists. split_and!; [reflexivity|reflexivity|left|left| |].
    + unfold next_value. simpl. case_decide; [lia|done].
    + unfold previous_value. simpl. repeat case_decide; (done || lia).
Qed.

(** For every number, [nextOptionFor] and [previousOptionFor] return
    normally an entry of the table.  On the scale -1 .. 4 the next value is
    the value plus one and the previous value the value minus one, wrapping
    around from 4 to -1 and from -1 to 4; a number off the scale is sent
    to -1 by both. *)
Theorem preference_steps v :
  exists next previous,
    nextOptionFor v = Normal next /\
    previousOptionFor v = Normal previous /\
    next ∈ preferenceOptions /\ previous ∈ preferenceOptions /\
    value next = next_value v /\
    value previous = previous_value v.
Proof.
  destruct (decide (-1 <= v <= 4)) as [Hv|Hv].
  - apply on_scale_cases in Hv.
    destruct Hv as [-> | [-> | [-> | [-> | [-> | ->]]]]];
      (do 2 eexists; split_and!; [reflexivity|reflexivity| | |done|done]);
      vm_compute; repeat first [by left|right].
  - unfold nextOptionFor, previousOptionFor.
    rewrite find_preference_off_scale by done. simpl.
    do 2 eexists. split_and!; [reflexivity|reflexivity|left|left| |].
    + unfold next_value. simpl. case_decide; [lia|done].
    + unfold previous_value. simpl. repeat case_decide; (done || lia).
Qed.

(** On the scale -1 .. 4, [previousOptionFor] undoes [nextOptionFor] and
    [nextOptionFor] undoes [previousOptionFor]. *)
Theorem preference_step_round_trip v :
  -1 <= v <= 4 ->
  exists next previous back forth,
    nextOptionFor v = Normal next /\
    previousOptionFor (value next) = Normal back /\ value back = v /\
    previousOptionFor v = Normal previous /\
    nextOptionFor (value previous) = Normal forth /\ value forth = v.
Proof.
  intros Hv. apply on_scale_cases in Hv.
  destruct Hv as [-> | [-> | [-> | [-> | [-> | ->]]]]];
    do 4 eexists; split_and!; reflexivity.
Qed.

Lemma preference_step_round_trip_witness :
  exists next previous back forth,
    nextOptionFor 4 = Normal next /\
    previousOptionFor (value next) = Normal back /\ value back = 4 /\
    previousOptionFor 4 = Normal previous /\
    nextOptionFor (value previous) = Normal forth /\ value forth = 4.
Proof. apply (preference_step_round_trip 4). lia. Defined.

(** ** The state of the form *)

Lemma Map_set_keys {V : Type} (k : string) (v : V) m :
  map fst (Map_set k v m)
  = if decide (k ∈ map fst m) then map fst m else map fst m ++ [k].
Proof.
  induction m as [|[k' v'] m IH].
  - done.
  - cbn [Map_set]. case_bool_decide as Hk; cbn [map fst].
    + subst k'. rewrite decide_True by left. done.
    + rewrite IH. destruct (decide (k ∈ map fst m)) as [Hin|Hnin].
      * rewrite decide_True by by right. done.
      * rewrite decide_False; [done|].
        intros [->|?]%elem_of_cons; done.
Qed.

Lemma Map_set_entries {V : Type} (k : string) (v : V) m kv :
  kv ∈ Map_set k v m -> kv = (k, v) \/ kv ∈ m.
Proof.
  induction m as [|[k' v'] m IH]; simpl.
  - intros ->%list_elem_of_singleton. by left.
  - case_bool_decide.
    + intros [->|?]%elem_of_cons; [by left|right; by right].
    + intros [->|Hin]%elem_of_cons; [right; left|].
      destruct (IH Hin) as [->|?]; [by left|right; by right].
Qed.

Lemma Map_set_Forall {V : Type} (P : string * V -> Prop) k v m :
  P (k, v) -> Forall P m -> Forall P (Map_set k v m).
Proof.
  intros Hkv Hm. apply Forall_forall. intros kv Hin.
  apply Map_set_entries in Hin as [->|Hin]; [done|].
  rewrite Forall_forall in Hm. by apply Hm.
Qed.

Lemma responseReducer_wf state updated :
  state_wf state -> state_wf (responseReducer state updated).
Proof.
  intros [Hnd Hown]. split.
  - unfold responseReducer. rewrite Map_set_keys. case_decide; [done|].
    apply NoDup_app. split_and!; [done| |apply NoDup_singleton].
    intros x Hx ->%list_elem_of_singleton. done.
  - by apply Map_set_Forall.
Qed.

Lemma Map_set_id {V : Type} (k : string) (v : V) m :
  NoDup (map fst m) -> (k, v) ∈ m -> Map_set k v m = m.
Proof.
  induction m as [|[k' v'] m IH]; simpl; intros Hnd Hin.
  - by apply elem_of_nil in Hin.
  - apply NoDup_cons in Hnd as [Hk' Hnd].
    apply elem_of_cons in Hin as [[= -> ->]|Hin].
    + by rewrite bool_decide_eq_true_2.
    + rewrite bool_decide_eq_false_2.
      * by rewrite IH.
      * intros ->. apply Hk'.
        by apply (list_elem_of_fmap_2 fst) in Hin.
Qed.

Lemma Map_set_Map_set {V : Type} (k : string) (v v' : V) m :
  Map_set k v (Map_set k v' m) = Map_set k v m.
Proof.
  induction m as [|[k0 v0] m IH]; simpl.
  - by rewrite bool_decide_eq_true_2.
  - case_bool_decide as Hk; simpl.
    + by rewrite bool_decide_eq_true_2.
    + rewrite bool_decide_eq_false_2 by done. by rewrite IH.
Qed.

Lemma Map_set_elem {V : Type} (k : string) (v : V) m : (k, v) ∈ Map_set k v m.
Proof.
  induction m as [|[k' v'] m IH]; simpl; [left|].
  case_bool_decide; [left|by right].
Qed.

Lemma forId_Map_set state u x :
  Forall (fun kv => optionId kv.2 = kv.1) state ->
  forId (map snd (responseReducer state u)) x
  = if bool_decide (optionId u = x) then Some u
    else forId (map snd state) x.
Proof.
  unfold responseReducer, forId.
  induction state as [|[k' v'] state IH]; intros Hown; [done|].
  apply Forall_cons in Hown as [Hk' Hown]. simpl in Hk'. subst k'.
  cbn [Map_set]. destruct (decide (optionId v' = optionId u)) as [Hk|Hk].
  - rewrite bool_decide_eq_true_2 by done. simpl. rewrite Hk.
    by destruct (bool_decide (optionId u = x)).
  - rewrite bool_decide_eq_false_2 by done. simpl. rewrite IH by done.
    destruct (bool_decide (optionId v' = x)) eqn:Hv,
             (bool_decide (optionId u = x)) eqn:Hu; try done.
    apply bool_decide_eq_true in Hv, Hu. congruence.
Qed.

Lemma forId_Some l x d : forId l x = Some d -> d ∈ l /\ optionId d = x.
Proof.
  intros [Hin Hp]%find_some. apply bool_decide_eq_true in Hp.
  by rewrite list_elem_of_In.
Qed.

Lemma NoDup_optionId_eq (l : list ResponseData) a b :
  NoDup (map optionId l) -> a ∈ l -> b ∈ l -> optionId a = optionId b -> a = b.
Proof.
  induction l as [|c l IH]; simpl; intros Hnd Ha Hb Hab.
  - by apply elem_of_nil in Ha.
  - apply NoDup_cons in Hnd as [Hc Hnd].
    apply elem_of_cons in Ha as [->|Ha], Hb as [->|Hb]; auto.
    + destruct Hc. rewrite Hab. by apply list_elem_of_fmap_2.
    + destruct Hc. rewrite <- Hab. by apply list_elem_of_fmap_2.
Qed.

Lemma forId_unique l x d :
  NoDup (map optionId l) -> d ∈ l -> optionId d = x -> forId l x = Some d.
Proof.
  intros Hnd Hin Hx. destruct (forId l x) as [d'|] eqn:Hf.
  - apply forId_Some in Hf as [Hin' Hx'].
    f_equal. apply (NoDup_optionId_eq l); congruence.
  - apply list_elem_of_In in Hin. apply (find_none _ _ Hf) in Hin.
    by apply bool_decide_eq_false in Hin.
Qed.

Lemma forId_Permutation l l' x :
  NoDup (map optionId l) -> l ≡ₚ l' -> forId l x = forId l' x.
Proof.
  intros Hnd Hp. destruct (forId l' x) as [d|] eqn:Hf.
  - apply forId_Some in Hf as [Hin Hx].
    apply forId_unique; [done|by rewrite Hp|done].
  - destruct (forId l x) as [d|] eqn:Hf'; [|done].
    apply forId_Some in Hf' as [Hin Hx]. rewrite Hp in Hin.
    apply list_elem_of_In in Hin. apply (find_none _ _ Hf) in Hin.
    by apply bool_decide_eq_false in Hin.
Qed.

Lemma state_wf_values state :
  state_wf state -> map optionId (map snd state) = map fst state.
Proof.
  intros [_ Hown]. induction Hown as [|[k v] state Hk _ IH]; simpl; [done|].
  simpl in Hk. by rewrite Hk, IH.
Qed.

Lemma preference_compare_consistent (l : list ResponseData) :
  consistent_on (fun x y => preference x - preference y) l.
Proof. split; intros; lia. Qed.

Lemma responseStateToList_sorted d :
  exists l,
    responseStateToList d = Normal l /\ l ≡ₚ map snd d /\
    StronglySorted (fun x y => preference x - preference y <= 0) l.
Proof.
  unfold responseStateToList.
  set (fn := fun x y : ResponseData => Normal (preference x - preference y)).
  assert (pure_on fn (fun x y => preference x - preference y) (map snd d))
    as Hpure by by intros a b _ _.
  destruct (Array_sort_pure fn _ _ Hpure) as [l Hl].
  exists l. split_and!; [done|by apply (Array_sort_Permutation fn)|].
  eapply Array_sort_sorted; eauto using preference_compare_consistent.
Qed.

Lemma fold_responseReducer_wf actions :
  state_wf (fold_left responseReducer actions emptyMap).
Proof.
  induction actions as [|u actions IH] using rev_ind.
  - split; [constructor|constructor].
  - rewrite fold_left_app. simpl. by apply responseReducer_wf.
Qed.

(** After any sequence of dispatched actions, the list the form renders
    and submits has at most one entry per option id, is in ascending order
    of preference, and holds for every option id the data dispatched last
    for it (nothing for an id never dispatched). *)
Theorem response_state_latest (actions : list ResponseData) :
  exists l,
    responseStateToList (fold_left responseReducer actions emptyMap)
      = Normal l /\
    NoDup (map optionId l) /\
    (forall (i j : nat) a b, (i < j)%nat -> l !! i = Some a -> l !! j = Some b ->
       preference a <= preference b) /\
    forall x, forId l x = forId (rev actions) x.
Proof.
  set (state := fold_left responseReducer actions emptyMap).
  pose proof (fold_responseReducer_wf actions) as Hwf. fold state in Hwf.
  destruct (responseStateToList_sorted state) as (l & Hl & Hp & Hs).
  exists l. split; [done|].
  assert (NoDup (map optionId (map snd state))) as Hnd.
  { rewrite state_wf_values by done. apply Hwf. }
  split_and!.
  - by rewrite Hp.
  - intros i j a b Hij Ha Hb.
    pose proof (StronglySorted_lookup _ l i j a b Hs Hij Ha Hb). simpl in *. lia.
  - intros x. rewrite <- (forId_Permutation _ _ x Hnd (symmetry Hp)).
    unfold state. clear.
    induction actions as [|u actions IH] using rev_ind; [done|].
    rewrite fold_left_app, rev_app_distr. simpl.
    rewrite forId_Map_set by apply fold_responseReducer_wf.
    by rewrite IH.
Qed.

(** ** Clicking through the form *)

Lemma preferenceOptions_scale o : o ∈ preferenceOptions -> -1 <= value o <= 4.
Proof.
  unfold preferenceOptions. intros Ho.
  repeat (apply elem_of_cons in Ho as [->|Ho]; [simpl; lia|]).
  by apply elem_of_nil in Ho.
Qed.

Lemma optionTransformer_step (reverse : bool) v :
  exists o,
    (if reverse then previousOptionFor else nextOptionFor) v = Normal o /\
    -1 <= value o <= 4 /\
    value o = if reverse then previous_value v else next_value v.
Proof.
  destruct (option_steps v) as (n & p & Hn & Hp & Hnin & Hpin & Hnv & Hpv).
  destruct reverse; eexists; (split; [eassumption|]);
    split; auto using preferenceOptions_scale.
Qed.

Lemma forId_is_Some l x : is_Some (forId l x) <-> x ∈ map optionId l.
Proof.
  split.
  - intros [d [Hin <-]%forId_Some]. by apply list_elem_of_fmap_2.
  - intros (d & -> & Hin)%list_elem_of_fmap.
    destruct (forId l (optionId d)) as [d'|] eqn:Hf; [by eexists|].
    apply list_elem_of_In in Hin. apply (find_none _ _ Hf) in Hin.
    by apply bool_decide_eq_false in Hin.
Qed.

Lemma onClick_action (l : list ResponseData) x reverse :
  Forall (fun d => uncertain d = false /\ -1 <= preference d <= 4) l ->
  exists u,
    onClick l x reverse = Normal u /\
    optionId u = x /\ uncertain u = false /\ -1 <= preference u <= 4.
Proof.
  intros Hl. unfold onClick. destruct (forId l x) as [data|] eqn:Hf.
  - apply forId_Some in Hf as [Hin Hx]. rewrite Forall_forall in Hl.
    destruct (Hl data Hin) as [Hu Hscale].
    destruct (optionTransformer_step reverse (preference data))
      as (o & Ho & Hov & _).
    rewrite Ho. simpl. eexists. split; [done|]. by simpl.
  - eexists. split; [done|]. simpl. split_and!; (done || lia).
Qed.

Lemma click_step state c :
  state_wf state ->
  Forall (fun kv : string * ResponseData =>
            uncertain kv.2 = false /\ -1 <= preference kv.2 <= 4) state ->
  exists state',
    click state c = Normal state' /\
    state_wf state' /\
    Forall (fun kv : string * ResponseData =>
              uncertain kv.2 = false /\ -1 <= preference kv.2 <= 4) state' /\
    forall x, x ∈ map fst state' <-> x ∈ map fst state \/ x = c.1.
Proof.
  intros Hwf Hall. unfold click.
  destruct (responseStateToList_sorted state) as (l & -> & Hp & _). simpl.
  destruct (onClick_action l c.1 c.2) as (u & -> & Hx & Hu & Hscale).
  { rewrite Hp. by apply Forall_fmap. }
  simpl. eexists. split; [done|]. split_and!.
  - by apply responseReducer_wf.
  - by apply Map_set_Forall.
  - intros x. unfold responseReducer. rewrite Map_set_keys, Hx.
    case_decide as Hin.
    + split; [by left|]. by intros [?| ->].
    + rewrite elem_of_app, list_elem_of_singleton. done.
Qed.

Lemma clicks_fold cs state :
  state_wf state ->
  Forall (fun kv : string * ResponseData =>
            uncertain kv.2 = false /\ -1 <= preference kv.2 <= 4) state ->
  exists state',
    foldM click cs state = Normal state' /\
    state_wf state' /\
    Forall (fun kv : string * ResponseData =>
              uncertain kv.2 = false /\ -1 <= preference kv.2 <= 4) state' /\
    forall x, x ∈ map fst state' <-> x ∈ map fst state \/ x ∈ map fst cs.
Proof.
  revert state. induction cs as [|c cs IH]; simpl; intros state Hwf Hall.
  - exists state. split_and!; try done. intros x. split; [by left|].
    intros [?|H]; [done|]. by apply elem_of_nil in H.
  - destruct (click_step state c Hwf Hall) as (s1 & -> & Hwf1 & Hall1 & Hk1).
    simpl. destruct (IH s1 Hwf1 Hall1) as (s2 & -> & Hwf2 & Hall2 & Hk2).
    exists s2. split_and!; try done. intros x.
    rewrite Hk2, Hk1, elem_of_cons. tauto.
Qed.

(** After any sequence of clicks and reverse clicks on option badges,
    starting from the empty form, the list the form renders and submits
    has an entry for exactly the options clicked at least once, at most
    one per option, each with a preference on the scale -1 .. 4 and with
    the uncertain flag off: the form never produces [uncertain = true]. *)
Theorem form_clicks (cs : list (string * bool)) :
  exists state l,
    foldM click cs emptyMap = Normal state /\
    responseStateToList state = Normal l /\
    NoDup (map optionId l) /\
    Forall (fun d => uncertain d = false /\ -1 <= preference d <= 4) l /\
    forall x, is_Some (forId l x) <-> x ∈ map fst cs.
Proof.
  destruct (clicks_fold cs emptyMap) as (state & Hrun & Hwf & Hall & Hkeys).
  { split; constructor. }
  { constructor. }
  destruct (responseStateToList_sorted state) as (l & Hl & Hp & _).
  exists state, l. split_and!; try done.
  - rewrite Hp, state_wf_values by done. apply Hwf.
  - rewrite Hp. by apply Forall_fmap.
  - intros x. rewrite forId_is_Some, Hp, state_wf_values by done.
    rewrite Hkeys. split; [|by right].
    intros [H|H]; [by apply elem_of_nil in H|done].
Qed.

Lemma click_existing state x d (reverse : bool) :
  state_wf state -> (x, d) ∈ state ->
  exists o,
    (if reverse then previousOptionFor else nextOptionFor) (preference d)
    = Normal o /\
    value o = (if reverse then previous_value (preference d)
               else next_value (preference d)) /\
    click state (x, reverse)
    = Normal (Map_set x (mkSelectedOption (value o) (uncertain d) x) state).
Proof.
  intros Hwf Hin. unfold click.
  destruct (responseStateToList_sorted state) as (l & -> & Hp & _). simpl.
  assert (optionId d = x) as Hx.
  { destruct Hwf as [_ Hown]. rewrite Forall_forall in Hown.
    by apply (Hown (x, d)). }
  assert (forId l x = Some d) as Hf.
  { apply forId_unique; [|rewrite Hp; by apply (list_elem_of_fmap_2 snd) in Hin
                         |done].
    rewrite Hp, state_wf_values by done. apply Hwf. }
  unfold onClick. rewrite Hf.
  destruct (optionTransformer_step reverse (preference d)) as (o & Ho & _ & Hv).
  exists o. split; [done|]. split; [done|].
  rewrite Ho. simpl. unfold responseReducer. simpl. by rewrite Hx.
Qed.

Lemma step_values_round_trip v :
  -1 <= v <= 4 ->
  previous_value (next_value v) = v /\ next_value (previous_value v) = v.
Proof.
  intros Hv. unfold previous_value, next_value.
  repeat case_decide; lia.
Qed.

(** In a form state whose entries are filed under their own option ids,
    a click on an option that has an answer with a preference on the scale,
    followed by a reverse click on the same option, gives the state back;
    so does a reverse click followed by a click. *)
Theorem click_undo state x d :
  state_wf state -> (x, d) ∈ state -> -1 <= preference d <= 4 ->
  exists s1 s2,
    click state (x, false) = Normal s1 /\ click s1 (x, true) = Normal state /\
    click state (x, true) = Normal s2 /\ click s2 (x, false) = Normal state.
Proof.
  intros Hwf Hin Hscale.
  destruct (step_values_round_trip _ Hscale) as [Hpn Hnp].
  assert (optionId d = x) as Hx.
  { destruct Hwf as [_ Hown]. rewrite Forall_forall in Hown.
    by apply (Hown (x, d)). }
  assert (forall (reverse : bool) s o,
            click state (x, reverse)
            = Normal (Map_set x (mkSelectedOption (value o) (uncertain d) x)
                        state) ->
            s = Map_set x (mkSelectedOption (value o) (uncertain d) x) state ->
            value o = (if reverse then previous_value (preference d)
                       else next_value (preference d)) ->
            click s (x, negb reverse) = Normal state) as Hback.
  { intros reverse s o _ -> Hv.
    set (u := mkSelectedOption (value o) (uncertain d) x).
    destruct (click_existing (Map_set x u state) x u (negb reverse))
      as (o' & _ & Hv' & ->).
    { by apply (responseReducer_wf state u). }
    { apply Map_set_elem. }
    f_equal. rewrite Map_set_Map_set. apply Map_set_id; [apply Hwf|].
    assert (value o' = preference d) as ->.
    { rewrite Hv'. simpl. rewrite Hv. by destruct reverse. }
    simpl. destruct d. simpl in *. by subst. }
  destruct (click_existing state x d false Hwf Hin) as (o1 & _ & Hv1 & Hc1).
  destruct (click_existing state x d true Hwf Hin) as (o2 & _ & Hv2 & Hc2).
  do 2 eexists. split_and!; [exact Hc1| |exact Hc2|].
  - by apply (Hback false _ o1).
  - by apply (Hback true _ o2).
Qed.

Lemma click_undo_witness :
  exists s1 s2,
    click [("A", mkSelectedOption 4 false "A")] ("A", false) = Normal s1 /\
    click s1 ("A", true) = Normal [("A", mkSelectedOption 4 false "A")] /\
    click [("A", mkSelectedOption 4 false "A")] ("A", true) = Normal s2 /\
    click s2 ("A", false) = Normal [("A", mkSelectedOption 4 false "A")].
Proof.
  apply (click_undo [("A", mkSelectedOption 4 false "A")] "A"
           (mkSelectedOption 4 false "A")).
  - split; repeat constructor. by intros H%elem_of_nil.
  - left.
  - simpl. lia.
Defined.

(** * [sortByNullishComparator] and the earlier version of the page *)

Lemma StronglySorted_pairs {A : Type} (R : A -> A -> Prop) (l : list A) :
  StronglySorted R l ->
  forall (i j : nat) a b, (i < j)%nat -> l !! i = Some a -> l !! j = Some b ->
    R a b.
Proof. intros Hs i j a b. by apply StronglySorted_lookup. Qed.

(** For a key function that returns normally, [sortByNullishComparator]
    returns a rearrangement of the array in which present keys ascend and
    absent keys come last, and in which the items of equal key (absent
    ones included) keep the order they had. *)
Theorem sortByNullishComparator_sorted_stable (T : Type) (arr : list T)
  (fn : SortOrder T) (k : T -> option Z) :
  (forall a, a ∈ arr -> fn a = Normal (k a)) ->
  exists s,
    sortByNullishComparator arr fn = Normal s /\
    s ≡ₚ arr /\
    (forall (i j : nat) a b, (i < j)%nat -> s !! i = Some a -> s !! j = Some b ->
       match k a, k b with
       | None, Some _ => False
       | Some x, Some y => x <= y
       | _, None => True
       end) /\
    forall v : option Z,
      List.filter (fun x => bool_decide (k x = v)) s
      = List.filter (fun x => bool_decide (k x = v)) arr.
Proof.
  intros Hf. change (sortByNullishComparator arr fn)
    with (Array_sort (sortOrderToComparator fn) arr).
  pose proof (sortOrderToComparator_pure fn k arr Hf) as Hpure.
  destruct (Array_sort_pure _ _ _ Hpure) as [s Hs].
  exists s. split_and!; [done|by apply (Array_sort_Permutation _ _ _ Hs)| |].
  - intros i j a b Hij Ha Hb.
    pose proof (Array_sort_sorted _ _ _ _ Hpure
                  (nullish_compare_consistent k arr) Hs) as Hsorted.
    pose proof (StronglySorted_pairs _ _ Hsorted i j a b Hij Ha Hb) as Hle.
    simpl in Hle. unfold nullish_compare in Hle.
    destruct (k a), (k b); try done; lia.
  - intros v.
    apply (Array_sort_stable (sortOrderToComparator fn) (nullish_compare k));
      [done| |done].
    intros a b _ _ Ha Hb. apply bool_decide_eq_true in Ha, Hb.
    unfold nullish_compare. rewrite Ha, Hb. destruct v; lia.
Qed.

Lemma sortByNullishComparator_sorted_stable_witness :
  exists s,
    sortByNullishComparator [3; 1; 3] (fun a => Normal (Some a)) = Normal s /\
    s ≡ₚ [3; 1; 3] /\
    (forall (i j : nat) a b, (i < j)%nat -> s !! i = Some a -> s !! j = Some b ->
       match Some a, Some b with
       | None, Some _ => False
       | Some x, Some y => x <= y
       | _, None => True
       end) /\
    forall v : option Z,
      List.filter (fun x => bool_decide (Some x = v)) s
      = List.filter (fun x => bool_decide (Some x = v)) [3; 1; 3].
Proof.
  apply (sortByNullishComparator_sorted_stable Z [3; 1; 3]
           (fun a => Normal (Some a)) Some).
  by intros a _.
Defined.

Lemma rank_loop_items {T : Type} (fn : ComparatorFn T) baseRanking result r :
  rank_loop fn baseRanking result = Normal r ->
  map item r = map item result ++ map item baseRanking.
Proof.
  revert result. induction baseRanking as [|it rest IH]; simpl; intros result H.
  - injection H as <-. by rewrite app_nil_r.
  - case_bool_decide as Hlen.
    + apply nil_length_inv in Hlen as ->. by rewrite (IH _ H).
    + destruct (last result) as [lastItem|]; [|done].
      apply bind_Normal in H as (c & _ & H). rewrite (IH _ H).
      rewrite map_app, <- app_assoc. simpl. by destruct (c =? 0).
Qed.

Lemma Earlier_comparator_eq {T : Type} (fn : Earlier.KeyFn T) a b :
  (aVal <- fn a ;;
   bVal <- fn b ;;
   match aVal, bVal with
   | (Earlier.Null | Earlier.Undefined), (Earlier.Null | Earlier.Undefined) =>
       Normal 0
   | (Earlier.Null | Earlier.Undefined), Earlier.Num _ => Normal 1
   | Earlier.Num _, (Earlier.Null | Earlier.Undefined) => Normal (-1)
   | Earlier.Num av, Earlier.Num bv => Normal (av - bv)
   end)
  = sortOrderToComparator (Earlier.as_SortOrder fn) a b.
Proof.
  unfold sortOrderToComparator, Earlier.as_SortOrder.
  destruct (fn a) as [[x| |]|msg]; simpl; try done;
    destruct (fn b) as [[y| |]|msg']; done.
Qed.

Lemma Earlier_sort_eq {T : Type} (arr : list T) (fn : Earlier.KeyFn T) :
  Earlier.sortByNullishComparator arr fn
  = Array_sort (sortOrderToComparator (Earlier.as_SortOrder fn)) arr.
Proof.
  unfold Earlier.sortByNullishComparator. apply Array_sort_ext.
  intros a b _ _. apply Earlier_comparator_eq.
Qed.

Lemma Earlier_rank_loop_eq {T : Type} (fn : Earlier.KeyFn T) (l : list T)
  baseRanking result :
  (forall a, a ∈ l -> fn a <> Normal Earlier.Undefined) ->
  (forall it, it ∈ baseRanking -> item it ∈ l) ->
  (forall e, last result = Some e -> item e ∈ l) ->
  Earlier.rank_loop fn baseRanking result
  = rank_loop (sortOrderToComparator (Earlier.as_SortOrder fn)) baseRanking
      result.
Proof.
  intros Hdef. revert result.
  induction baseRanking as [|it rest IH]; simpl; intros result Hb Hl; [done|].
  assert (item it ∈ l) as Hit by (apply Hb; left).
  assert (forall it', it' ∈ rest -> item it' ∈ l) as Hrest
    by (intros; apply Hb; by right).
  destruct (bool_decide (length result = 0%nat)).
  - apply IH; [done|]. by intros e [= <-].
  - destruct (last result) as [lastItem|] eqn:Hlast; [|done].
    assert (forall c, (forall e, last (result ++ [c]) = Some e ->
                         item c = item it -> item e ∈ l)) as Hsnoc.
    { intros c e. rewrite last_snoc. intros [= <-] ->. done. }
    pose proof (Hdef _ Hit) as Ha. pose proof (Hdef _ (Hl _ eq_refl)) as Hb'.
    unfold sortOrderToComparator, Earlier.as_SortOrder.
    destruct (fn (item it)) as [a|msg]; simpl; [|done].
    destruct (fn (item lastItem)) as [b|msg]; simpl; [|done].
    destruct a as [x| |], b as [y| |]; simpl; try done;
      try (apply IH; [done|]; intros e He; by apply (Hsnoc _ e He)).
    destruct (x - y =? 0) eqn:Hxy.
    + apply Z.eqb_eq in Hxy. rewrite (proj2 (Z.eqb_eq x y)) by lia.
      apply IH; [done|]. intros e He. by apply (Hsnoc _ e He).
    + apply Z.eqb_neq in Hxy. rewrite (proj2 (Z.eqb_neq x y)) by lia.
      apply IH; [done|]. intros e He. by apply (Hsnoc _ e He).
Qed.

Lemma Earlier_rankBySortOrder_eq (T : Type) (arr : list T)
  (fn : Earlier.KeyFn T) :
  (forall a, a ∈ arr -> fn a <> Normal Earlier.Undefined) ->
  Earlier.rankBySortOrder arr fn
  = (r <- rankBySortOrder arr (Earlier.as_SortOrder fn) ;;
     Normal (r, map item r)).
Proof.
  intros Hdef.
  unfold Earlier.rankBySortOrder, rankBySortOrder, rankByComparator.
  rewrite Earlier_sort_eq.
  destruct (Array_sort (sortOrderToComparator (Earlier.as_SortOrder fn)) arr)
    as [s|msg] eqn:Hs; simpl; [|done].
  rewrite (Earlier_rank_loop_eq fn arr); [|done| |done].
  - destruct (rank_loop _ _ []) as [r|msg] eqn:Hr; simpl; [|done].
    apply rank_loop_items in Hr. simpl in Hr.
    by rewrite Hr, (imap_items Z.of_nat).
  - intros it Hit. rewrite <- (Array_sort_Permutation _ _ _ Hs).
    rewrite <- (imap_items Z.of_nat s). by apply list_elem_of_fmap_2.
Qed.



(** The two versions part where a key function returns [null] for one item
    and [undefined] for another: the earlier tie test [===] keeps the two
    items apart, the later [cmp == 0] gives them the same rank. *)
Lemma Earlier_rankBySortOrder_null_undefined :
  let fn : Earlier.KeyFn Z :=
    fun a => Normal (if a =? 1 then Earlier.Null else Earlier.Undefined) in
  Earlier.rankBySortOrder [1; 2] fn
  = Normal ([mkRanked 1 0; mkRanked 2 1], [1; 2]) /\
  rankBySortOrder [1; 2] (Earlier.as_SortOrder fn)
  = Normal [mkRanked 1 0; mkRanked 2 0].
Proof. split; reflexivity. Qed.

Lemma Earlier_cardinality_empty l :
  Earlier.responsePreferenceCardianlity l = ∅.
Proof.
  unfold Earlier.responsePreferenceCardianlity.
  induction l as [|opt l IH]; simpl; [done|].
  unfold Earlier.cardinality_step at 2. by rewrite lookup_empty.
Qed.

Lemma Earlier_nullable_key_defined {T : Type} (f : SortOrder T) a :
  Earlier.nullable_key f a <> Normal Earlier.Undefined.
Proof.
  unfold Earlier.nullable_key. by destruct (f a) as [[n|]|msg].
Qed.

Lemma Earlier_as_SortOrder_nullable_key {T : Type} (f : SortOrder T) a :
  Earlier.as_SortOrder (Earlier.nullable_key f) a = f a.
Proof.
  unfold Earlier.as_SortOrder, Earlier.nullable_key.
  by destruct (f a) as [[n|]|msg].
Qed.

Lemma Earlier_rankBySortOrder_ranking options arr (fn : SortOrder Option) :
  arr ≡ₚ options ->
  (forall a, a ∈ options -> exists v, fn a = Normal v) ->
  exists r arr',
    Earlier.rankBySortOrder arr (Earlier.nullable_key fn) = Normal (r, arr') /\
    arr' ≡ₚ options /\
    ranking options (nullish_compare (key_value fn)) r.
Proof.
  intros Hp Hf. rewrite Earlier_rankBySortOrder_eq
    by (intros; apply Earlier_nullable_key_defined).
  rewrite (rankBySortOrder_ext _ fn)
    by (intros; apply Earlier_as_SortOrder_nullable_key).
  destruct (rankBySortOrder_sorted fn arr) as (s & Hs & _ & ->).
  { intros a Ha. apply Hf. by rewrite <- Hp. }
  simpl. rewrite spec_ranks_items. do 2 eexists. split; [done|].
  split; [by rewrite Hs|]. exists s. split; [by rewrite Hs|done].
Qed.

Lemma Earlier_overall_key_Normal options r1 r2 r3 N o :
  map item r1 ≡ₚ options -> map item r2 ≡ₚ options ->
  map item r3 ≡ₚ options -> o ∈ options ->
  Earlier.overall_key N r1 r2 r3 o =
    Normal (Some (3 * N + rank_of r1 (id o) + rank_of r2 (id o)
                  + rank_of r3 (id o))).
Proof.
  intros H1 H2 H3 Ho. unfold Earlier.overall_key.
  destruct (assertNotNull_find _ _ _ H1 Ho) as (e1 & -> & _ & <-).
  destruct (assertNotNull_find _ _ _ H2 Ho) as (e2 & -> & _ & <-).
  destruct (assertNotNull_find _ _ _ H3 Ho) as (e3 & -> & _ & <-).
  by rewrite aggregateRankScore_sum.
Qed.

Lemma Earlier_label_entry_Normal options r1 r2 r3 r4 x :
  map item r1 ≡ₚ options -> map item r2 ≡ₚ options ->
  map item r3 ≡ₚ options -> map item r4 ≡ₚ options ->
  x ∈ map id options ->
  Earlier.label_entry r1 r2 r3 r4 x
  = Normal (x, Earlier.mkRanks (rank_of r1 x) (rank_of r2 x) (rank_of r3 x)
                 (rank_of r4 x)).
Proof.
  intros H1 H2 H3 H4 (o & -> & Ho)%list_elem_of_fmap.
  unfold Earlier.label_entry.
  destruct (assertNotNull_find _ _ _ H1 Ho) as (? & _ & -> & <-).
  destruct (assertNotNull_find _ _ _ H2 Ho) as (? & _ & -> & <-).
  destruct (assertNotNull_find _ _ _ H3 Ho) as (? & _ & -> & <-).
  destruct (assertNotNull_find _ _ _ H4 Ho) as (? & _ & -> & <-).
  done.
Qed.

(** In the earlier version of the page the tally loop never stores the
    per-option map it fills, so the tally is empty whatever the responses
    are, and [labelResponses] returns rank 0 under each of its four
    criteria for every listed option. *)
Theorem Earlier_labelResponses_all_zero options responses :
  Earlier.responsePreferenceCardianlity (flat_map selectedOptions responses)
  = ∅ /\
  exists labels,
    Earlier.labelResponses options responses = Normal labels /\
    forall o, o ∈ options ->
      labels !! id o = Some (Earlier.mkRanks 0 0 0 0).
Proof.
  split; [apply Earlier_cardinality_empty|].
  unfold Earlier.labelResponses. rewrite Earlier_cardinality_empty.
  destruct (Earlier_rankBySortOrder_ranking options options
              (leastNumberOfNos_key ∅)) as (r1 & o1 & -> & Hp1 & Hr1);
    [done|intros; apply leastNumberOfNos_key_Normal|].
  simpl.
  destruct (Earlier_rankBySortOrder_ranking options o1
              (leastNumberOfNosMaybes_key ∅)) as (r2 & o2 & -> & Hp2 & Hr2);
    [done|intros; apply leastNumberOfNosMaybes_key_Normal|].
  simpl.
  destruct (Earlier_rankBySortOrder_ranking options o2
              (bestScore_key ∅)) as (r3 & o3 & -> & Hp3 & Hr3);
    [done|intros; apply bestScore_key_Normal|].
  simpl.
  pose proof (ranking_items _ _ _ Hr1) as Hi1.
  pose proof (ranking_items _ _ _ Hr2) as Hi2.
  pose proof (ranking_items _ _ _ Hr3) as Hi3.
  assert (forall x, rank_of r1 x = 0) as Hz1.
  { intros x. by eapply rank_of_all_tied. }
  assert (forall x, rank_of r2 x = 0) as Hz2.
  { intros x. by eapply rank_of_all_tied. }
  assert (forall x, rank_of r3 x = 0) as Hz3.
  { intros x. by eapply rank_of_all_tied. }
  destruct (Earlier_rankBySortOrder_ranking options o3
              (Earlier.overall_key (Z.of_nat (length options)) r1 r2 r3))
    as (r4 & o4 & -> & Hp4 & Hr4); [done| |].
  { intros a Ha. rewrite (Earlier_overall_key_Normal options) by done. eauto. }
  simpl.
  pose proof (ranking_items _ _ _ Hr4) as Hi4.
  assert (forall x, rank_of r4 x = 0) as Hz4.
  { intros x. eapply rank_of_all_tied; [exact Hr4|].
    intros a b Ha Hb. unfold nullish_compare, key_value.
    rewrite !(Earlier_overall_key_Normal options) by done.
    rewrite !Hz1, !Hz2, !Hz3. lia. }
  rewrite (mapM_pure _
             (fun x => (x, Earlier.mkRanks (rank_of r1 x) (rank_of r2 x)
                             (rank_of r3 x) (rank_of r4 x)))).
  - simpl. eexists. split; [done|]. intros o Ho.
    rewrite Map_of_entries_lookup.
    rewrite decide_True by (rewrite Hp4; by apply list_elem_of_fmap_2).
    by rewrite Hz1, Hz2, Hz3, Hz4.
  - intros x Hx. apply (Earlier_label_entry_Normal options); try done.
    by rewrite <- Hp4.
Qed.

(** * The order of the options *)

Lemma dense_ranks_unique (options : list Option) (lt : Option -> Option -> Prop)
  (rho rho' : Option -> Z) :
  (forall a b, a ∈ options -> b ∈ options -> (rho a < rho b <-> lt a b)) ->
  (forall a b, a ∈ options -> b ∈ options -> (rho' a < rho' b <-> lt a b)) ->
  (forall a n, a ∈ options -> 0 <= n <= rho a ->
     exists b, b ∈ options /\ rho b = n) ->
  (forall a n, a ∈ options -> 0 <= n <= rho' a ->
     exists b, b ∈ options /\ rho' b = n) ->
  (forall a, a ∈ options -> 0 <= rho a) ->
  (forall a, a ∈ options -> 0 <= rho' a) ->
  forall a, a ∈ options -> rho' a = rho a.
Proof.
  intros Hlt Hlt' Hd Hd' Hn Hn'.
  assert (forall n, 0 <= n -> forall a, a ∈ options -> rho a <= n ->
            rho' a = rho a) as Hind.
  { apply (natlike_ind (fun n => forall a, a ∈ options -> rho a <= n ->
                                   rho' a = rho a)).
    - intros a Ha Hle. pose proof (Hn a Ha). pose proof (Hn' a Ha).
      destruct (decide (rho' a = 0)) as [Hz|Hz]; [lia|].
      destruct (Hd' a 0 Ha) as (b & Hb & Hb0); [lia|].
      assert (rho' b < rho' a) as Hba by lia.
      apply Hlt', Hlt in Hba; [|done..]. pose proof (Hn b Hb). lia.
    - intros n Hn0 IH a Ha Hle.
      destruct (decide (rho a <= n)) as [Hsmall|Hbig]; [by apply IH|].
      assert (rho a = n + 1) as Hra by lia.
      destruct (Hd a n Ha) as (b & Hb & Hbn); [lia|].
      assert (rho' b = n) as Hb' by (rewrite <- Hbn; apply IH; [done|lia]).
      assert (rho' b < rho' a) as Hba.
      { apply Hlt', Hlt; [done..|lia]. }
      destruct (decide (rho' a = n + 1)) as [Heq|Hne]; [lia|].
      destruct (Hd' a (n + 1) Ha) as (c & Hc & Hcn); [lia|].
      assert (rho b < rho c) by (apply Hlt, Hlt'; [done..|lia]).
      assert (rho c < rho a) by (apply Hlt, Hlt'; [done..|lia]).
      lia. }
  intros a Ha. apply (Hind (rho a)); [by apply Hn|done|lia].
Qed.

Lemma rank_of_dense options (k : Option -> option Z) r a n :
  sorted_ranking options (nullish_compare k) r ->
  (forall a b, id a = id b -> k a = k b) ->
  a ∈ options -> 0 <= n <= rank_of r (id a) ->
  exists b, b ∈ options /\ rank_of r (id b) = n.
Proof.
  intros Hr Hid Ha Hn.
  pose proof (sorted_ranking_items _ _ _ Hr) as Hi.
  destruct (find_by_id_is_Some _ _ _ Hi Ha) as [ea Hea].
  unfold rank_of in Hn. rewrite Hea in Hn.
  apply find_by_id_Some in Hea as [_ Hea].
  pose proof Hr as (s & Hp & Hs & ->).
  assert (exists q, q ∈ spec_ranks (nullish_compare k) s /\ rank q = n)
    as (q & Hq & Hqn).
  { destruct s as [|x s]; simpl in Hea; [by apply elem_of_nil in Hea|].
    destruct (decide (n = 0)) as [->|Hn0].
    { eexists. split; [left|done]. }
    apply elem_of_cons in Hea as [->|Hea]; [simpl in Hn; lia|].
    destruct (spec_ranks_from_dense _ x 0 s ea n Hea Hn)
      as [->|(q & Hq & Hqn)]; [done|].
    exists q. split; [by right|done]. }
  assert (item q ∈ options) as Hqo.
  { rewrite <- Hi. by apply list_elem_of_fmap_2. }
  exists (item q). split; [done|].
  destruct (find_by_id_is_Some _ _ _ Hi Hqo) as [e He].
  unfold rank_of. rewrite He. apply find_by_id_Some in He as [Hide He].
  rewrite <- Hqn.
  apply (spec_ranks_order k s e q Hs He Hq).
  unfold nullish_compare. rewrite (Hid _ _ Hide). destruct (k (item q)); lia.
Qed.

Lemma rank_of_reorder options options' (k : Option -> option Z) r r' a :
  options ≡ₚ options' ->
  sorted_ranking options (nullish_compare k) r ->
  sorted_ranking options' (nullish_compare k) r' ->
  (forall a b, id a = id b -> k a = k b) ->
  a ∈ options -> rank_of r' (id a) = rank_of r (id a).
Proof.
  intros Hp Hr Hr' Hid Ha.
  assert (forall b, b ∈ options <-> b ∈ options') as Hin
    by (intros; by rewrite Hp).
  apply (dense_ranks_unique options (fun a b => nullish_compare k a b < 0)
           (fun a => rank_of r (id a)) (fun a => rank_of r' (id a)));
    try done.
  - intros x y Hx Hy. by apply (rank_of_order options).
  - intros x y Hx Hy. apply (rank_of_order options'); [done..| |];
      by apply Hin.
  - intros x n Hx Hn. by apply (rank_of_dense options k r x).
  - intros x n Hx Hn.
    destruct (rank_of_dense options' k r' x n) as (b & Hb & Hbn);
      [done..|by apply Hin|done|].
    exists b. split; [by apply Hin|done].
  - intros x _. eapply rank_of_nonneg, sorted_ranking_ranking, Hr.
  - intros x _. eapply rank_of_nonneg, sorted_ranking_ranking, Hr'.
Qed.

(** Listing the same options in another order leaves the fewest-nos, the
    fewest-nos-and-maybes, the best-score and the overall rank of every
    option unchanged. *)
Theorem labelResponses_option_order options options' responses :
  options ≡ₚ options' ->
  exists labels labels',
    labelResponses options responses = Normal labels /\
    labelResponses options' responses = Normal labels' /\
    forall o, o ∈ options ->
      exists rl rl',
        labels !! id o = Some rl /\ labels' !! id o = Some rl' /\
        leastNumberOfNosRank rl' = leastNumberOfNosRank rl /\
        leastNumberOfNosMaybesRank rl' = leastNumberOfNosMaybesRank rl /\
        bestScoreRank rl' = bestScoreRank rl /\
        overallRank rl' = overallRank rl.
Proof.
  intros Hp.
  destruct (labelResponses_pipeline options responses)
    as (card & r1 & r2 & r3 & r4 & r5 & Hpipe & Hrun).
  destruct (labelResponses_pipeline options' responses)
    as (card' & r1' & r2' & r3' & r4' & r5' & Hpipe' & Hrun').
  assert (card' = card) as ->.
  { rewrite (pipe_card _ _ _ _ _ _ _ _ Hpipe).
    by rewrite (pipe_card _ _ _ _ _ _ _ _ Hpipe'). }
  do 2 eexists. split; [exact Hrun|]. split; [exact Hrun'|].
  assert (forall b, b ∈ options <-> b ∈ options') as Hin
    by (intros; by rewrite Hp).
  assert (forall a, a ∈ options -> rank_of r1' (id a) = rank_of r1 (id a))
    as He1.
  { intros a Ha. apply (rank_of_reorder options options' _ _ _ _ Hp
                          (pipe_nos _ _ _ _ _ _ _ _ Hpipe)
                          (pipe_nos _ _ _ _ _ _ _ _ Hpipe')); [|done].
    intros x y Hxy. unfold key_value, leastNumberOfNos_key. by rewrite Hxy. }
  assert (forall a, a ∈ options -> rank_of r2' (id a) = rank_of r2 (id a))
    as He2.
  { intros a Ha. apply (rank_of_reorder options options' _ _ _ _ Hp
                          (pipe_nosMaybes _ _ _ _ _ _ _ _ Hpipe)
                          (pipe_nosMaybes _ _ _ _ _ _ _ _ Hpipe')); [|done].
    intros x y Hxy. unfold key_value, leastNumberOfNosMaybes_key.
    by rewrite Hxy. }
  assert (forall a, a ∈ options -> rank_of r3' (id a) = rank_of r3 (id a))
    as He3.
  { intros a Ha. apply (rank_of_reorder options options' _ _ _ _ Hp
                          (pipe_bestScore _ _ _ _ _ _ _ _ Hpipe)
                          (pipe_bestScore _ _ _ _ _ _ _ _ Hpipe')); [|done].
    intros x y Hxy. unfold key_value, bestScore_key. by rewrite Hxy. }
  assert (forall a, a ∈ options -> rank_of r4' (id a) = rank_of r4 (id a))
    as He4.
  { apply (dense_ranks_unique options
             (fun a b => rank_of r1 (id a) + rank_of r2 (id a)
                         + rank_of r3 (id a)
                         < rank_of r1 (id b) + rank_of r2 (id b)
                           + rank_of r3 (id b))
             (fun a => rank_of r4 (id a)) (fun a => rank_of r4' (id a))).
    - intros x y Hx Hy.
      by apply (overall_rank_order _ _ _ _ _ _ _ _ x y Hpipe).
    - intros x y Hx Hy.
      pose proof (overall_rank_order _ _ _ _ _ _ _ _ x y Hpipe'
                    (proj1 (Hin x) Hx) (proj1 (Hin y) Hy)) as [Hlt _].
      simpl in Hlt. rewrite !He1, !He2, !He3 in Hlt by done. done.
    - intros x n Hx Hn.
      apply (rank_of_dense options _ r4 x n
               (pipe_overall _ _ _ _ _ _ _ _ Hpipe)); [|done..].
      intros a b Hab. unfold key_value, overall_key. by rewrite Hab.
    - intros x n Hx Hn.
      destruct (rank_of_dense options' _ r4' x n
                  (pipe_overall _ _ _ _ _ _ _ _ Hpipe')) as (b & Hb & Hbn);
        [|by apply Hin|done|].
      { intros a b Hab. unfold key_value, overall_key. by rewrite Hab. }
      exists b. split; [by apply Hin|done].
    - intros x _. eapply rank_of_nonneg, sorted_ranking_ranking, Hpipe.
    - intros x _. eapply rank_of_nonneg, sorted_ranking_ranking, Hpipe'. }
  intros o Ho. do 2 eexists.
  split; [exact (labelResponses_lookup _ _ _ _ _ _ _ _ _ o Hrun Hrun Hpipe Ho)|].
  split; [exact (labelResponses_lookup _ _ _ _ _ _ _ _ _ o Hrun' Hrun' Hpipe'
                   (proj1 (Hin o) Ho))|].
  simpl. by rewrite He1, He2, He3, He4.
Qed.

Lemma labelResponses_option_order_witness :
  exists labels labels',
    labelResponses [mkOption "A" "2023-05-01"; mkOption "B" "2023-05-02"]
      scenario_responses = Normal labels /\
    labelResponses [mkOption "B" "2023-05-02"; mkOption "A" "2023-05-01"]
      scenario_responses = Normal labels' /\
    forall o, o ∈ [mkOption "A" "2023-05-01"; mkOption "B" "2023-05-02"] ->
      exists rl rl',
        labels !! id o = Some rl /\ labels' !! id o = Some rl' /\
        leastNumberOfNosRank rl' = leastNumberOfNosRank rl /\
        leastNumberOfNosMaybesRank rl' = leastNumberOfNosMaybesRank rl /\
        bestScoreRank rl' = bestScoreRank rl /\
        overallRank rl' = overallRank rl.
Proof.
  apply (labelResponses_option_order
           [mkOption "A" "2023-05-01"; mkOption "B" "2023-05-02"]
           [mkOption "B" "2023-05-02"; mkOption "A" "2023-05-01"]
           scenario_responses).
  apply Permutation_swap.
Defined.

(** * Further facts *)

(** For every input and every listed option, the key of the overall
    criterion is three times the number of options plus the plain sum of
    the three ranks of the option: the position of a rank among the
    components adds a constant and gives the rank no weight. *)
Theorem overall_key_is_rank_sum options responses :
  exists card r1 r2 r3,
    responsePreferenceCardianlity (flat_map selectedOptions responses)
      = Normal card /\
    rankBySortOrder options (leastNumberOfNos_key card) = Normal r1 /\
    rankBySortOrder options (leastNumberOfNosMaybes_key card) = Normal r2 /\
    rankBySortOrder options (bestScore_key card) = Normal r3 /\
    forall o, o ∈ options ->
      exists n nm bs,
        find_by_id r1 (id o) = Some n /\
        find_by_id r2 (id o) = Some nm /\
        find_by_id r3 (id o) = Some bs /\
        overall_key (Z.of_nat (length options)) r1 r2 r3 o
        = Normal (Some (3 * Z.of_nat (length options)
                        + rank bs + rank nm + rank n)).
Proof.
  destruct (labelResponses_pipeline options responses)
    as (card & r1 & r2 & r3 & r4 & r5 & Hpipe & _).
  destruct (pipeline_items _ _ _ _ _ _ _ _ Hpipe)
    as (Hi1 & Hi2 & Hi3 & _ & _).
  exists card, r1, r2, r3. split_and!; [apply Hpipe..|].
  intros o Ho.
  destruct (assertNotNull_find _ _ _ Hi1 Ho) as (n & Hn & _ & Hrn).
  destruct (assertNotNull_find _ _ _ Hi2 Ho) as (nm & Hnm & _ & Hrnm).
  destruct (assertNotNull_find _ _ _ Hi3 Ho) as (bs & Hbs & _ & Hrbs).
  exists n, nm, bs. split_and!; try done.
  rewrite (overall_key_Normal options) by done. by rewrite Hrn, Hrnm, Hrbs.
Qed.

Lemma find_preference_on_scale v :
  -1 <= v <= 4 ->
  exists opt, find_preference v = Some opt /\ label opt <> "?" /\
              background opt +:+ " " +:+ foreground opt <> "bg-gray-200".
Proof.
  intros Hv. apply on_scale_cases in Hv.
  destruct Hv as [-> | [-> | [-> | [-> | [-> | ->]]]]];
    (eexists; split; [reflexivity|]; split; vm_compute; discriminate).
Qed.

(** A badge is rendered as unknown, with the title "?" and the grey
    background, exactly for the preference values off the scale -1 .. 4;
    a missing answer has the title "Not answered" and the grey
    background. *)
Theorem unknown_preference_rendering v :
  (titleForPreference (Some v) = "?" <-> ~ (-1 <= v <= 4)) /\
  (backgroundColorForPreference (Some v) = "bg-gray-200"
   <-> ~ (-1 <= v <= 4)) /\
  titleForPreference None = "Not answered" /\
  backgroundColorForPreference None = "bg-gray-200".
Proof.
  unfold titleForPreference, backgroundColorForPreference.
  destruct (decide (-1 <= v <= 4)) as [Hv|Hv].
  - destruct (find_preference_on_scale v Hv) as (opt & -> & Hl & Hb).
    split_and!; try done; split; (done || tauto).
  - rewrite find_preference_off_scale by done. by split_and!.
Qed.
